(** * Soundcast native audio pipeline: ring buffer, worker queue, session

    A shallow embedding of the three C++ sources under [src/native/src]:
    - [audio_buffer.cc]   : [AudioRingBuffer], the single-producer /
                            single-consumer ring buffer of samples;
    - [whisper_worker.cc] : [WhisperWorker], the mutex-guarded queue of
                            [AudioChunk]s drained by one background thread;
    - [whisper_addon.cc]  : [WhisperSession], the host-facing session.

    [size_t] values are integers in [Z] with the 64-bit wrap-around written
    out at every arithmetic operation; vectors and queues are lists. *)

From stdpp Require Import base numbers list strings gmap.

Local Open Scope Z_scope.

#[local] Set Warnings "-register-all".

(** ** Unsigned 64-bit arithmetic ([size_t]) *)

Definition SIZE_MODULUS : Z := 2 ^ 64.

(** The value a [size_t] expression takes: reduction modulo [2^64]. *)
Definition size_t (x : Z) : Z := x mod SIZE_MODULUS.

Definition size_add (a b : Z) : Z := size_t (a + b).
Definition size_sub (a b : Z) : Z := size_t (a - b).

(** The value an [int64_t] expression takes: two's complement reduction
    into [[-2^63, 2^63)]. *)
Definition int64_t (x : Z) : Z := (x + 2 ^ 63) mod 2 ^ 64 - 2 ^ 63.

(** ** C strings *)

(** [std::string::c_str()] as a reader of the [const char*] sees it: the
    characters before the first NUL. *)
Fixpoint c_str (s : string) : string :=
  match s with
  | EmptyString => EmptyString
  | String a rest =>
      if Ascii.eqb a Ascii.zero then EmptyString else String a (c_str rest)
  end.

(** Whether a string holds a NUL character. *)
Fixpoint has_nul (s : string) : bool :=
  match s with
  | EmptyString => false
  | String a rest => Ascii.eqb a Ascii.zero || has_nul rest
  end.

(** ** audio_buffer.cc *)

Module RingBuffer.

Section Buffer.

(** The sample type ([float] in the source; the buffer only copies it). *)
Context {A : Type}.

(** [static const size_t BUFFER_SIZE]; the source fixes it to 480000, the
    operations below are written for any capacity. *)
Variable BUFFER_SIZE : Z.

Record AudioRingBuffer : Type := MkBuffer {
  buffer : list A;
  writePos : Z;
  readPos : Z
}.

(** [std::memcpy(&dst[off], src, n * sizeof(float))] *)
Definition memcpy_to (dst : list A) (off : Z) (src : list A) (n : Z) : list A :=
  list_inserts (Z.to_nat off) (take (Z.to_nat n) src) dst.

(** The [n] samples [std::memcpy(dest, &src[off], n * sizeof(float))]
    stores at [dest]. *)
Definition memcpy_from (src : list A) (off : Z) (n : Z) : list A :=
  take (Z.to_nat n) (drop (Z.to_nat off) src).

(** [AudioRingBuffer()] : value-initialised storage, both cursors 0. *)
Definition create (zero : A) : AudioRingBuffer :=
  MkBuffer (replicate (Z.to_nat BUFFER_SIZE) zero) 0 0.

(** The free space [Write] computes from the two cursors. *)
Definition write_available (currentWrite currentRead : Z) : Z :=
  if currentRead >? currentWrite
  then size_sub (size_sub currentRead currentWrite) 1
  else size_sub (size_add (size_sub BUFFER_SIZE currentWrite) currentRead) 1.

(** The occupied count [Read] and [Available] compute. *)
Definition read_available (currentWrite currentRead : Z) : Z :=
  if currentWrite >=? currentRead
  then size_sub currentWrite currentRead
  else size_add (size_sub BUFFER_SIZE currentRead) currentWrite.

(** [size_t Write(const float* data, size_t length)]: the span
    [(data, length)] is the list [data]. Returns the new buffer and the
    count written. *)
Definition Write (b : AudioRingBuffer) (data : list A) : AudioRingBuffer * Z :=
  let length0 := Z.of_nat (length data) in
  let currentWrite := writePos b in
  let currentRead := readPos b in
  let available := write_available currentWrite currentRead in
  let length := if available <? length0 then available else length0 in
  if length =? 0 then (b, 0)
  else
    let firstPart := Z.min length (size_sub BUFFER_SIZE currentWrite) in
    let buf1 := memcpy_to (buffer b) currentWrite data firstPart in
    let buf2 :=
      if length >? firstPart
      then
        let secondPart := size_sub length firstPart in
        memcpy_to buf1 0 (drop (Z.to_nat firstPart) data) secondPart
      else buf1 in
    (MkBuffer buf2 (size_add currentWrite length mod BUFFER_SIZE) currentRead,
     length).

(** [size_t Read(float* dest, size_t length)]: returns the new buffer and
    the samples stored at [dest]; the returned count is their number. *)
Definition Read (b : AudioRingBuffer) (length0 : Z) : AudioRingBuffer * list A :=
  let currentRead := readPos b in
  let currentWrite := writePos b in
  let available := read_available currentWrite currentRead in
  let length := if available <? length0 then available else length0 in
  if length =? 0 then (b, [])
  else
    let firstPart := Z.min length (size_sub BUFFER_SIZE currentRead) in
    let dest1 := memcpy_from (buffer b) currentRead firstPart in
    let dest2 :=
      if length >? firstPart
      then
        let secondPart := size_sub length firstPart in
        dest1 ++ memcpy_from (buffer b) 0 secondPart
      else dest1 in
    (MkBuffer (buffer b) currentWrite (size_add currentRead length mod BUFFER_SIZE),
     dest2).

(** [size_t Available() const] *)
Definition Available (b : AudioRingBuffer) : Z :=
  read_available (writePos b) (readPos b).

(** [void Clear()] *)
Definition Clear (b : AudioRingBuffer) : AudioRingBuffer :=
  MkBuffer (buffer b) 0 0.

(** *** Operation sequences *)

Inductive op : Type :=
| OpWrite (data : list A)
| OpRead (length : Z)
| OpClear.

(** What one operation hands back to its caller. *)
Inductive result : Type :=
| Written (count : Z)
| Got (samples : list A)
| Cleared.

Definition exec (b : AudioRingBuffer) (o : op) : AudioRingBuffer * result :=
  match o with
  | OpWrite data => let '(b', n) := Write b data in (b', Written n)
  | OpRead n => let '(b', out) := Read b n in (b', Got out)
  | OpClear => (Clear b, Cleared)
  end.

Fixpoint run (b : AudioRingBuffer) (ops : list op) : AudioRingBuffer * list result :=
  match ops with
  | [] => (b, [])
  | o :: rest =>
      let '(b1, r) := exec b o in
      let '(b2, rs) := run b1 rest in
      (b2, r :: rs)
  end.

End Buffer.

Arguments AudioRingBuffer : clear implicits.
Arguments op : clear implicits.
Arguments result : clear implicits.

End RingBuffer.

(** ** whisper_worker.cc *)

Module Worker.

Section Worker.

Context {A : Type}.

(** [class AudioChunk]: an owned copy of the samples and a timestamp. *)
Record AudioChunk : Type := MkChunk {
  data : list A;
  timestamp : Z
}.

(** Where the background thread stands in [ProcessQueue]. *)
Inductive thread_state : Type :=
| AtLoopTest                      (* about to evaluate [while (!stopRequested)] *)
| AtWait                          (* in [queueCV.wait(lock, pred)] *)
| Processing (chunk : AudioChunk) (* popped, lock released, processing [chunk] *)
| Exited.                         (* [ProcessQueue] has returned *)

(** [class WhisperWorker]. [processed] is a ghost log of the chunks that
    reached the processing step, oldest first. *)
Record WhisperWorker : Type := MkWorker {
  audioQueue : list AudioChunk;
  stopRequested : bool;
  workerThread : thread_state;
  joinable : bool;
  processed : list AudioChunk
}.

Definition set_thread (t : thread_state) (w : WhisperWorker) : WhisperWorker :=
  MkWorker (audioQueue w) (stopRequested w) t (joinable w) (processed w).

(** [WhisperWorker()]: flag cleared, thread started on [ProcessQueue]. *)
Definition create : WhisperWorker :=
  MkWorker [] false AtLoopTest true [].

(** The predicate of [queueCV.wait]:
    [!audioQueue.empty() || stopRequested]. *)
Definition wait_condition (w : WhisperWorker) : bool :=
  negb (bool_decide (audioQueue w = [])) || stopRequested w.

(** One scheduling of the background thread in [ProcessQueue]; [None]
    when it cannot move (suspended in the wait, or already returned). *)
Definition ProcessQueue_step (w : WhisperWorker) : option WhisperWorker :=
  match workerThread w with
  | AtLoopTest =>
      if stopRequested w then Some (set_thread Exited w)
      else Some (set_thread AtWait w)
  | AtWait =>
      if wait_condition w then
        if stopRequested w then Some (set_thread Exited w)
        else
          match audioQueue w with
          | chunk :: rest =>
              Some (MkWorker rest (stopRequested w) (Processing chunk)
                             (joinable w) (processed w))
          | [] => Some (set_thread AtLoopTest w)
          end
      else None
  | Processing chunk =>
      Some (MkWorker (audioQueue w) (stopRequested w) AtLoopTest
                     (joinable w) (processed w ++ [chunk]))
  | Exited => None
  end.

(** [void EnqueueAudio(const float* data, size_t length, size_t timestamp)] *)
Definition EnqueueAudio (w : WhisperWorker) (samples : list A) (ts : Z)
  : WhisperWorker :=
  MkWorker (audioQueue w ++ [MkChunk samples ts]) (stopRequested w)
           (workerThread w) (joinable w) (processed w).

(** [Stop()], first half: the flag is set under the lock and every waiter
    is notified. *)
Definition Stop_request (w : WhisperWorker) : WhisperWorker :=
  MkWorker (audioQueue w) true (workerThread w) (joinable w) (processed w).

(** [Stop()], second half: [if (joinable()) join()]. [None] while the
    caller is still blocked in [join]. *)
Definition Stop_return (w : WhisperWorker) : option WhisperWorker :=
  if joinable w then
    match workerThread w with
    | Exited =>
        Some (MkWorker (audioQueue w) (stopRequested w) Exited false
                       (processed w))
    | _ => None
    end
  else Some w.

(** The background thread running on its own for at most [fuel] steps,
    until it can move no further. *)
Fixpoint run_thread (fuel : nat) (w : WhisperWorker) : WhisperWorker :=
  match fuel with
  | O => w
  | S fuel' =>
      match ProcessQueue_step w with
      | Some w' => run_thread fuel' w'
      | None => w
      end
  end.

(** A whole call of [Stop()] while no other caller is active: the flag is
    set, the thread runs while the caller is blocked in [join], and the
    call returns once the thread has exited. *)
Definition Stop (fuel : nat) (w : WhisperWorker) : option WhisperWorker :=
  Stop_return (run_thread fuel (Stop_request w)).

(** [size_t GetQueueSize()] *)
Definition GetQueueSize (w : WhisperWorker) : Z :=
  Z.of_nat (length (audioQueue w)).

(** *** Interleavings of the callers and the background thread *)

Inductive event : Type :=
| EvEnqueue (samples : list A) (ts : Z)
| EvWorker
| EvStopRequest
| EvStopReturn.

(** [None]: the event cannot happen in this state. *)
Definition step (w : WhisperWorker) (e : event) : option WhisperWorker :=
  match e with
  | EvEnqueue samples ts => Some (EnqueueAudio w samples ts)
  | EvWorker => ProcessQueue_step w
  | EvStopRequest => Some (Stop_request w)
  | EvStopReturn => Stop_return w
  end.

Fixpoint run (w : WhisperWorker) (evs : list event) : option WhisperWorker :=
  match evs with
  | [] => Some w
  | e :: rest =>
      match step w e with
      | Some w' => run w' rest
      | None => None
      end
  end.

Definition reachable (w : WhisperWorker) : Prop :=
  ∃ evs, run create evs = Some w.

(** The chunks [EnqueueAudio] was called with along a trace, in call
    order. *)
Definition enqueued (evs : list event) : list AudioChunk :=
  omap (λ e, match e with
             | EvEnqueue samples ts => Some (MkChunk samples ts)
             | _ => None
             end) evs.

(** The chunk the thread holds between the pop and the end of its
    processing. *)
Definition in_flight (w : WhisperWorker) : list AudioChunk :=
  match workerThread w with
  | Processing chunk => [chunk]
  | _ => []
  end.

End Worker.

Arguments AudioChunk : clear implicits.
Arguments thread_state : clear implicits.
Arguments WhisperWorker : clear implicits.
Arguments event : clear implicits.

End Worker.

(** ** whisper_addon.cc *)

Module Session.

Section Session.

(** Samples ([float]) and JavaScript numbers (doubles) are kept abstract;
    [Int32Value] is N-API's conversion of a number to [int32_t]. *)
Context {A Num : Type}.
Variable Int32Value : Num → Z.
(** [Napi::Number::New] of an [int64_t]. *)
Variable Number_New : Z → Num.

(** JavaScript values as the addon inspects them. Objects, and buffers
    and arrays, which are objects too, carry their own named
    properties. *)
Inductive JsValue : Type :=
| JsUndefined
| JsNull
| JsBoolean (b : bool)
| JsNumber (x : Num)
| JsString (s : string)
| JsBuffer (samples : list A) (props : gmap string JsValue)
| JsArray (items : list JsValue) (props : gmap string JsValue)
| JsObject (props : gmap string JsValue).

(** What a value's prototype chain holds under a name, if anything. *)
Variable inherited : JsValue → string → option JsValue.

Definition IsString (v : JsValue) : bool :=
  match v with JsString _ => true | _ => false end.
Definition IsNumber (v : JsValue) : bool :=
  match v with JsNumber _ => true | _ => false end.
Definition IsBuffer (v : JsValue) : bool :=
  match v with JsBuffer _ _ => true | _ => false end.
(** Buffers and arrays are objects too. *)
Definition IsObject (v : JsValue) : bool :=
  match v with JsObject _ | JsBuffer _ _ | JsArray _ _ => true | _ => false end.

(** The own named properties of a value. *)
Definition props_of (v : JsValue) : gmap string JsValue :=
  match v with
  | JsObject props | JsBuffer _ props | JsArray _ props => props
  | _ => ∅
  end.

(** The property N-API finds under a name: the value's own, else the one
    its prototype chain holds. *)
Definition find_property (v : JsValue) (key : string) : option JsValue :=
  match props_of v !! key with
  | Some x => Some x
  | None => inherited v key
  end.

(** [options.Has(key)] and [options.Get(key)] *)
Definition Has (options : JsValue) (key : string) : bool :=
  bool_decide (is_Some (find_property options key)).
Definition Get (options : JsValue) (key : string) : JsValue :=
  default JsUndefined (find_property options key).

(** [Napi::CallbackInfo]: the argument list; [info[i]] past the end is
    [undefined]. *)
Definition CallbackInfo : Type := list JsValue.
Definition arg (info : CallbackInfo) (i : nat) : JsValue :=
  default JsUndefined (info !! i).

(** What a native method hands back to JavaScript. *)
Inductive completion : Type :=
| Returned (v : JsValue)
| ThrewError (msg : string)
| ThrewTypeError (msg : string).

(** *** The whisper library, as far as the session depends on it *)

(** A [whisper_context*] is a handle; [nullptr] is [None]. *)
Definition whisper_context : Type := nat.

(** The library's bookkeeping: the contexts alive, the next handle to
    hand out, and the log of every [whisper_free] call, oldest first. *)
Record Runtime : Type := MkRuntime {
  live : gset whisper_context;
  next_context : whisper_context;
  free_calls : list whisper_context
}.

Definition whisper_free (c : whisper_context) (rt : Runtime) : Runtime :=
  MkRuntime (live rt ∖ {[c]}) (next_context rt) (free_calls rt ++ [c]).

(** Whether the file at a path loads as a model. *)
Variable model_loads : string → bool.

Definition whisper_init_from_file_with_params (path : string) (rt : Runtime)
  : option whisper_context * Runtime :=
  if model_loads path then
    (Some (next_context rt),
     MkRuntime ({[next_context rt]} ∪ live rt) (S (next_context rt))
               (free_calls rt))
  else (None, rt).

(** The fields of [struct whisper_full_params] the addon sets. *)
Record whisper_full_params : Type := MkParams {
  print_progress : bool;
  print_special : bool;
  print_realtime : bool;
  print_timestamps : bool;
  translate : bool;
  n_threads : Z;
  language : string
}.

(** [whisper_full_default_params(WHISPER_SAMPLING_GREEDY)] *)
Variable whisper_full_default_params : whisper_full_params.

(** A transcribed segment: text, [t0], [t1] (the times are [int64_t]). *)
Record segment : Type := MkSegment {
  seg_text : string;
  seg_t0 : Z;
  seg_t1 : Z
}.

(** [whisper_full]: the return code and the segments left in the context
    for [whisper_full_n_segments] and [whisper_full_get_segment_*]. *)
Variable whisper_full :
  whisper_context → whisper_full_params → list A → Z * list segment.

(** *** [class WhisperSession] *)

Record WhisperSession : Type := MkSession {
  ctx : option whisper_context;
  modelPath : string
}.

(** [WhisperSession(const Napi::CallbackInfo& info)] *)
Definition construct (info : CallbackInfo) : WhisperSession * option completion :=
  if bool_decide (length info < 1)%nat || negb (IsString (arg info 0)) then
    (MkSession None EmptyString, Some (ThrewTypeError "Model path required"))
  else
    match arg info 0 with
    | JsString path => (MkSession None path, None)
    | _ => (MkSession None EmptyString, None)
    end.

(** [Napi::Value LoadModel(const Napi::CallbackInfo& info)] *)
Definition LoadModel (s : WhisperSession) (rt : Runtime)
  : WhisperSession * Runtime * completion :=
  let rt1 := match ctx s with
             | Some c => whisper_free c rt
             | None => rt
             end in
  let '(c', rt2) := whisper_init_from_file_with_params (modelPath s) rt1 in
  let s' := MkSession c' (modelPath s) in
  match c' with
  | None => (s', rt2, ThrewError ("Failed to load model: " +:+ modelPath s))
  | Some _ => (s', rt2, Returned (JsBoolean true))
  end.

(** [Transcribe], "Default whisper parameters" and "Parse options if
    provided": the parameters [whisper_full] is called with. *)
Definition transcribe_params (info : CallbackInfo) : whisper_full_params :=
  let wparams := whisper_full_default_params in
  let wparams :=
    MkParams false false false true false 4 (language wparams) in
  let language0 := "en" in
  let '(language1, wparams) :=
    if bool_decide (2 ≤ length info)%nat && IsObject (arg info 1) then
      let options := arg info 1 in
      let language1 :=
        if Has options "language" && IsString (Get options "language") then
          match Get options "language" with
          | JsString s => s
          | _ => language0
          end
        else language0 in
      let wparams :=
        if Has options "threads" && IsNumber (Get options "threads") then
          match Get options "threads" with
          | JsNumber x =>
              MkParams (print_progress wparams) (print_special wparams)
                       (print_realtime wparams) (print_timestamps wparams)
                       (translate wparams) (Int32Value x) (language wparams)
          | _ => wparams
          end
        else wparams in
      (language1, wparams)
    else (language0, wparams) in
  MkParams (print_progress wparams) (print_special wparams)
           (print_realtime wparams) (print_timestamps wparams)
           (translate wparams) (n_threads wparams) (c_str language1).

(** [Transcribe], "Extract segments": one object per segment; the times
    are multiplied in [int64_t]. *)
Definition segment_object (sg : segment) : JsValue :=
  JsObject (<["timestampEnd" := JsNumber (Number_New (int64_t (seg_t1 sg * 10)))]>
           (<["timestampStart" := JsNumber (Number_New (int64_t (seg_t0 sg * 10)))]>
           (<["text" := JsString (seg_text sg)]> ∅))).

(** [Transcribe], "Run transcription" onwards. *)
Definition run_transcription (c : whisper_context) (wparams : whisper_full_params)
  (audio : list A) : completion :=
  let '(rc, segs) := whisper_full c wparams audio in
  if negb (rc =? 0) then ThrewError "Transcription failed"
  else Returned (JsArray (segment_object <$> segs) ∅).

(** [Napi::Value Transcribe(const Napi::CallbackInfo& info)] *)
Definition Transcribe (s : WhisperSession) (info : CallbackInfo) : completion :=
  match ctx s with
  | None => ThrewError "Model not loaded"
  | Some c =>
      if bool_decide (length info < 1)%nat || negb (IsBuffer (arg info 0)) then
        ThrewTypeError "Audio buffer required"
      else
        match arg info 0 with
        | JsBuffer audio _ => run_transcription c (transcribe_params info) audio
        | _ => ThrewTypeError "Audio buffer required"
        end
  end.

(** [void Destroy(const Napi::CallbackInfo& info)] *)
Definition Destroy (s : WhisperSession) (rt : Runtime) : WhisperSession * Runtime :=
  match ctx s with
  | Some c => (MkSession None (modelPath s), whisper_free c rt)
  | None => (s, rt)
  end.

(** The lifecycle calls a host can make on one session. *)
Inductive call : Type :=
| CallLoadModel
| CallDestroy.

Definition do_call (st : WhisperSession * Runtime) (c : call)
  : WhisperSession * Runtime :=
  match c with
  | CallLoadModel => (LoadModel (st.1) (st.2)).1
  | CallDestroy => Destroy (st.1) (st.2)
  end.

(** A handle is freed twice when it occurs twice in the log of
    [whisper_free] calls (handles are never handed out again). *)
Definition no_double_free (rt : Runtime) : Prop := NoDup (free_calls rt).

End Session.

Arguments JsValue : clear implicits.
Arguments completion : clear implicits.
Arguments CallbackInfo : clear implicits.

End Session.

(** * Representation, invariants and reference behaviour *)

Section CyclicLists.

Context {A : Type}.
Implicit Types l d : list A.

(** Reading [k] cells from position [r] of the storage, continuing at its
    start past the end, is a prefix of the doubled storage from [r]. *)
Definition cyclic_span l (r k : nat) : list A :=
  take k (drop r (l ++ l)).

(** The storage after a write of [d] at position [w] in two parts. *)
Definition cyclic_store l (w : nat) d : list A :=
  let fp := (length d `min` (length l - w))%nat in
  list_inserts 0 (drop fp d) (list_inserts w (take fp d) l).

End CyclicLists.

Section RingSpec.

Import RingBuffer.
Context {A : Type}.
Variable BUFFER_SIZE : Z.

(** Storage of [BUFFER_SIZE] cells and both cursors inside it. *)
Definition ring_ok (b : AudioRingBuffer A) : Prop :=
  length (buffer b) = Z.to_nat BUFFER_SIZE ∧
  0 ≤ writePos b < BUFFER_SIZE ∧
  0 ≤ readPos b < BUFFER_SIZE.

(** The samples written and not yet read, oldest first. *)
Definition contents (b : AudioRingBuffer A) : list A :=
  cyclic_span (buffer b) (Z.to_nat (readPos b))
              (Z.to_nat (Available BUFFER_SIZE b)).

(** The buffer after the samples [d] went in behind the write cursor. *)
Definition after_write (b : AudioRingBuffer A) (d : list A) : AudioRingBuffer A :=
  MkBuffer (cyclic_store (buffer b) (Z.to_nat (writePos b)) d)
           ((writePos b + Z.of_nat (length d)) `mod` BUFFER_SIZE)
           (readPos b).

(** The reference behaviour: an unbounded first-in first-out queue [q]
    of samples. A write appends, a read takes from the front. *)
Fixpoint fifo_run (q : list A) (ops : list (op A)) : list (result A) :=
  match ops with
  | [] => []
  | OpWrite d :: rest =>
      Written (Z.of_nat (length d)) :: fifo_run (q ++ d) rest
  | OpRead n :: rest =>
      Got (take (Z.to_nat n) q) :: fifo_run (drop (Z.to_nat n) q) rest
  | OpClear :: rest => Cleared :: fifo_run [] rest
  end.

(** A sequence of [Write] and [Read] calls whose outstanding sample
    count, starting from [outstanding], never exceeds [BUFFER_SIZE - 1];
    every requested read length is a [size_t]. *)
Fixpoint within_capacity (outstanding : Z) (ops : list (op A)) : bool :=
  match ops with
  | [] => true
  | OpWrite d :: rest =>
      let o' := outstanding + Z.of_nat (length d) in
      bool_decide (o' ≤ BUFFER_SIZE - 1) && within_capacity o' rest
  | OpRead n :: rest =>
      bool_decide (0 ≤ n < SIZE_MODULUS) &&
      within_capacity (outstanding - Z.min n outstanding) rest
  | OpClear :: _ => false
  end.

(** Every requested read length in a sequence is a [size_t]. *)
Definition well_typed (ops : list (op A)) : Prop :=
  Forall (λ o, match o with
               | OpRead n => 0 ≤ n < SIZE_MODULUS
               | _ => True
               end) ops.

(** The samples handed out by the reads of a run, concatenated. *)
Definition samples_read (rs : list (result A)) : list A :=
  mjoin (omap (λ r, match r with Got out => Some out | _ => None end) rs).

(** The samples handed in by the writes of a sequence, concatenated. *)
Definition samples_written (ops : list (op A)) : list A :=
  mjoin (omap (λ o, match o with OpWrite d => Some d | _ => None end) ops).

End RingSpec.

Section WorkerSpec.

Import Worker.
Context {A : Type}.
Implicit Types w : WhisperWorker A.

(** A joined thread has exited, and the thread exits only once a stop
    was requested. *)
Definition worker_inv w : Prop :=
  (joinable w = false → workerThread w = Exited) ∧
  (workerThread w = Exited → stopRequested w = true).

(** The woken thread leaves [ProcessQueue]; queue and log stay as they
    are. *)
Definition exits_on_wake w : Prop :=
  ProcessQueue_step w = Some (set_thread Exited w).

(** The woken thread pops the head of the queue, and nothing else, and
    goes on to process it. *)
Definition pops_head_on_wake w : Prop :=
  ∃ chunk rest,
    audioQueue w = chunk :: rest ∧
    ProcessQueue_step w
      = Some (MkWorker rest (stopRequested w) (Processing chunk)
                       (joinable w) (processed w)).

(** The thread hands [chunk] to the processing step, and nothing else,
    and returns to the loop test. *)
Definition processes_then_loops w (chunk : AudioChunk A) : Prop :=
  ProcessQueue_step w
    = Some (MkWorker (audioQueue w) (stopRequested w) AtLoopTest
                     (joinable w) (processed w ++ [chunk])).

End WorkerSpec.

Section SessionSpec.

Import Session.

(** The library before any model was loaded. *)
Definition fresh_runtime : Runtime := MkRuntime ∅ 0%nat [].

(** What the lifecycle calls maintain: every handle ever freed was handed
    out before and freed once, and the session's context, if any, is
    alive and was never freed. *)
Definition session_inv (st : WhisperSession * Runtime) : Prop :=
  NoDup (free_calls (st.2)) ∧
  (∀ c, c ∈ free_calls (st.2) → (c < next_context (st.2))%nat) ∧
  (∀ c, ctx (st.1) = Some c →
        (c < next_context (st.2))%nat ∧
        (c ∉ free_calls (st.2)) ∧
        c ∈ live (st.2)).

End SessionSpec.

Section RingReference.

Import RingBuffer.
Context {A : Type}.
Variable BUFFER_SIZE : Z.

(** The buffer after [k] samples went out at the read cursor. *)
Definition after_read (b : AudioRingBuffer A) (k : Z) : AudioRingBuffer A :=
  MkBuffer (buffer b) (writePos b) ((readPos b + k) `mod` BUFFER_SIZE).

(** The reference behaviour with overflow: a queue [q] that holds at most
    [BUFFER_SIZE - 1] samples. A write appends what fits of its data, a
    read takes from the front, a clear empties the queue. Returns the
    answers to the calls and the queue left at the end. *)
Fixpoint bounded_fifo_run (q : list A) (ops : list (op A))
  : list (result A) * list A :=
  match ops with
  | [] => ([], q)
  | OpWrite d :: rest =>
      let n := Z.min (Z.of_nat (length d))
                     (BUFFER_SIZE - 1 - Z.of_nat (length q)) in
      let '(rs, q') := bounded_fifo_run (q ++ take (Z.to_nat n) d) rest in
      (Written n :: rs, q')
  | OpRead n :: rest =>
      let '(rs, q') := bounded_fifo_run (drop (Z.to_nat n) q) rest in
      (Got (take (Z.to_nat n) q) :: rs, q')
  | OpClear :: rest =>
      let '(rs, q') := bounded_fifo_run [] rest in
      (Cleared :: rs, q')
  end.

(** The counts the writes of a run returned, summed. *)
Fixpoint total_written (rs : list (result A)) : Z :=
  match rs with
  | [] => 0
  | Written n :: rest => n + total_written rest
  | _ :: rest => total_written rest
  end.

(** The number of samples the reads of a run handed out. *)
Fixpoint total_read (rs : list (result A)) : Z :=
  match rs with
  | [] => 0
  | Got out :: rest => Z.of_nat (length out) + total_read rest
  | _ :: rest => total_read rest
  end.

(** The number of samples a caller knows the buffer to hold, from the
    answers it got: a write adds the count it returned, a read takes away
    the samples it handed out, a clear leaves none. *)
Definition held_after (held : Z) (r : result A) : Z :=
  match r with
  | Written n => held + n
  | Got out => held - Z.of_nat (length out)
  | Cleared => 0
  end.

Definition samples_held (rs : list (result A)) : Z :=
  foldl held_after 0 rs.

(** A sequence of [Write] and [Read] calls only, every read length a
    [size_t]. *)
Definition writes_and_reads (ops : list (op A)) : Prop :=
  Forall (λ o, match o with
               | OpWrite _ => True
               | OpRead n => 0 ≤ n < SIZE_MODULUS
               | OpClear => False
               end) ops.

End RingReference.

(** [BUFFER_SIZE] as the source fixes it: 30 s at 16 kHz. *)
Definition SOURCE_BUFFER_SIZE : Z := 480000.

Section SessionReference.

Import Session.

(** The library holds exactly the session's context, if any: nothing
    leaked, nothing dangling. *)
Definition one_live_context (st : WhisperSession * Runtime) : Prop :=
  live (st.2) = match ctx (st.1) with
                | Some c => {[c]}
                | None => ∅
                end.

End SessionReference.

(** * Ring buffer: proofs *)

Section CyclicListFacts.

Context {A : Type}.
Implicit Types l d : list A.

Lemma cyclic_span_split l r k :
  (r ≤ length l)%nat →
  cyclic_span l r k =
    take (k `min` (length l - r)) (drop r l) ++ take (k - (length l - r)) l.
Proof.
  intros Hr. unfold cyclic_span.
  rewrite drop_app_le by lia. rewrite take_app, length_drop. f_equal.
  destruct (decide (k ≤ length l - r)%nat).
  - by rewrite Nat.min_l by lia.
  - rewrite Nat.min_r by lia. rewrite !take_ge; [done | rewrite length_drop; lia..].
Qed.

Lemma cyclic_span_length l r k :
  (r + k ≤ 2 * length l)%nat → length (cyclic_span l r k) = k.
Proof.
  intros. unfold cyclic_span.
  rewrite length_take, length_drop, length_app. lia.
Qed.

Lemma cyclic_span_lookup l r k i :
  (i < k)%nat → (r + i < 2 * length l)%nat →
  cyclic_span l r k !! i =
    l !! (if decide (r + i < length l)%nat then r + i else r + i - length l)%nat.
Proof.
  intros Hi Hri. unfold cyclic_span.
  rewrite lookup_take_lt by done. rewrite lookup_drop.
  case_decide.
  - by rewrite lookup_app_l.
  - by rewrite lookup_app_r by lia.
Qed.

Lemma cyclic_span_take l r k n :
  take n (cyclic_span l r k) = cyclic_span l r (n `min` k).
Proof. unfold cyclic_span. by rewrite take_take. Qed.

(** Dropping [j] cells of a span moves its start by [j], wrapping at the
    end of the storage. *)
Lemma cyclic_span_drop l r k j :
  (r < length l)%nat → (k ≤ length l)%nat → (j ≤ k)%nat →
  drop j (cyclic_span l r k) =
    cyclic_span l (if decide (r + j < length l)%nat then r + j
                   else r + j - length l)%nat (k - j).
Proof.
  intros Hr Hk Hj. unfold cyclic_span.
  replace (drop j (take k (drop r (l ++ l))))
    with (take (k - j) (drop j (drop r (l ++ l))))
    by (rewrite take_drop_commute; do 2 f_equal; lia).
  rewrite drop_drop.
  case_decide as Hlt; [done|].
  rewrite (drop_app_ge l l (r + j)) by lia.
  rewrite (drop_app_le l l) by lia.
  rewrite take_app_le; [done|]. rewrite length_drop. lia.
Qed.

Lemma cyclic_store_length l w d : length (cyclic_store l w d) = length l.
Proof. unfold cyclic_store. by rewrite !length_inserts. Qed.

(** The cells a write touches hold the written samples in order... *)
Lemma cyclic_store_lookup_new l w d i :
  (w < length l)%nat → (length d < length l)%nat → (i < length d)%nat →
  cyclic_store l w d
    !! (if decide (w + i < length l)%nat then w + i else w + i - length l)%nat
  = d !! i.
Proof.
  intros Hw Hd Hi. unfold cyclic_store.
  set (fp := (length d `min` (length l - w))%nat).
  case_decide as Hlt.
  - rewrite list_lookup_inserts_ge by (rewrite length_drop; lia).
    rewrite list_lookup_inserts
      by (rewrite ?length_take; lia).
    rewrite lookup_take_lt by lia. f_equal; lia.
  - rewrite list_lookup_inserts
      by (rewrite ?length_inserts, ?length_drop; lia).
    rewrite lookup_drop. f_equal; lia.
Qed.

(** ... and every other cell keeps its value. *)
Lemma cyclic_store_lookup_old l w d j :
  (w < length l)%nat → (length d < length l)%nat → (j < length l)%nat →
  (∀ i, (i < length d)%nat →
        j ≠ (if decide (w + i < length l)%nat then w + i
             else w + i - length l)%nat) →
  cyclic_store l w d !! j = l !! j.
Proof.
  intros Hw Hd Hj Hfresh. unfold cyclic_store.
  set (fp := (length d `min` (length l - w))%nat).
  assert (length d - fp ≤ j)%nat as Hge.
  { destruct (decide (length d - fp ≤ j)%nat) as [|Hn]; [done|].
    exfalso. apply (Hfresh (fp + j)%nat); [lia|].
    case_decide; lia. }
  rewrite list_lookup_inserts_ge by (rewrite length_drop; lia).
  destruct (decide (j < w)%nat).
  { by rewrite list_lookup_inserts_lt. }
  rewrite list_lookup_inserts_ge; [done|].
  rewrite length_take.
  destruct (decide (w + fp ≤ j)%nat) as [|Hn]; [lia|].
  exfalso. apply (Hfresh (j - w)%nat); [lia|].
  case_decide; lia.
Qed.

(** A write of [d] just behind a span of [k] cells extends the span by
    [d], as long as one cell stays free. *)
Lemma cyclic_store_span l r k d :
  (r < length l)%nat → (k + length d < length l)%nat →
  cyclic_span
    (cyclic_store l (if decide (r + k < length l)%nat then r + k
                     else r + k - length l)%nat d)
    r (k + length d)
  = cyclic_span l r k ++ d.
Proof.
  intros Hr Hk.
  set (w := (if decide (r + k < length l)%nat then r + k
             else r + k - length l)%nat).
  assert (w < length l)%nat as Hw by (subst w; case_decide; lia).
  apply list_eq; intros i.
  destruct (decide (i < k + length d)%nat) as [Hi|Hi]; last first.
  { rewrite lookup_ge_None_2
      by (rewrite cyclic_span_length; rewrite ?cyclic_store_length; lia).
    symmetry. apply lookup_ge_None_2.
    rewrite length_app, cyclic_span_length; lia. }
  rewrite cyclic_span_lookup by (rewrite ?cyclic_store_length; lia).
  rewrite cyclic_store_length.
  destruct (decide (i < k)%nat) as [Hik|Hik].
  - rewrite lookup_app_l by (rewrite cyclic_span_length; lia).
    rewrite cyclic_span_lookup by lia.
    apply cyclic_store_lookup_old; [done | lia | case_decide; lia |].
    intros i' Hi'. subst w. repeat case_decide; lia.
  - rewrite lookup_app_r by (rewrite cyclic_span_length; lia).
    rewrite cyclic_span_length by lia.
    rewrite <-(cyclic_store_lookup_new l w d (i - k)) by lia.
    f_equal. subst w. repeat case_decide; lia.
Qed.

End CyclicListFacts.

Lemma SIZE_MODULUS_eq : SIZE_MODULUS = 18446744073709551616.
Proof. reflexivity. Qed.

Lemma size_t_small x : 0 ≤ x < SIZE_MODULUS → size_t x = x.
Proof. intros. unfold size_t. by apply Z.mod_small. Qed.

Lemma mod_once c x :
  0 < c → 0 ≤ x < 2 * c → x mod c = if decide (x < c) then x else x - c.
Proof.
  intros Hc Hx. case_decide.
  - apply Z.mod_small; lia.
  - symmetry. apply (Z.mod_unique _ _ 1); lia.
Qed.

(** Rewrites every [size_t] operation whose operands keep it in range. *)
Ltac size_simpl :=
  unfold size_add, size_sub;
  repeat match goal with
         | |- context [size_t ?x] =>
             rewrite (size_t_small x) by (rewrite SIZE_MODULUS_eq; lia)
         end.

Section RingFacts.

Import RingBuffer.
Context {A : Type}.
Variable C : Z.
Hypothesis C_pos : 0 < C.
Hypothesis C_max : C ≤ 2 ^ 63.

Implicit Types b : AudioRingBuffer A.

Local Lemma C_bound : 2 * C ≤ 18446744073709551616.
Proof using C_max. change (2 ^ 63) with 9223372036854775808 in C_max. lia. Qed.

Lemma read_available_eq wp rp :
  0 ≤ wp < C → 0 ≤ rp < C →
  read_available C wp rp = if decide (rp ≤ wp) then wp - rp else C - rp + wp.
Proof using C_pos C_max.
  intros Hw Hr. pose proof C_bound. unfold read_available.
  destruct (Z.geb_spec wp rp); case_decide; try lia; size_simpl; lia.
Qed.

Lemma write_available_eq wp rp :
  0 ≤ wp < C → 0 ≤ rp < C →
  write_available C wp rp = C - 1 - read_available C wp rp.
Proof using C_pos C_max.
  intros Hw Hr. pose proof C_bound. rewrite read_available_eq by done.
  unfold write_available.
  destruct (Z.gtb_spec rp wp); case_decide; try lia; size_simpl; lia.
Qed.

Lemma Available_range b :
  ring_ok C b → 0 ≤ Available C b ≤ C - 1.
Proof using C_pos C_max.
  intros (_ & Hw & Hr). unfold Available.
  rewrite read_available_eq by done. case_decide; lia.
Qed.

Lemma contents_length b :
  ring_ok C b → Z.of_nat (length (contents C b)) = Available C b.
Proof using C_pos C_max.
  intros Hok. pose proof (Available_range b Hok). destruct Hok as (Hl & Hw & Hr).
  unfold contents. rewrite cyclic_span_length; lia.
Qed.

(** [Read] hands out the oldest [min n occupied] samples and keeps the
    rest. *)
Lemma Read_spec b n :
  ring_ok C b → 0 ≤ n →
  ∃ b', Read C b n = (b', take (Z.to_nat n) (contents C b)) ∧
        ring_ok C b' ∧ buffer b' = buffer b ∧ writePos b' = writePos b ∧
        contents C b' = drop (Z.to_nat n) (contents C b).
Proof using C_pos C_max.
  intros Hok Hn. pose proof (Available_range b Hok) as Hav.
  pose proof C_bound as HC.
  destruct b as [buf wp rp]. destruct Hok as (Hl & Hw & Hr).
  unfold contents, Available in *. simpl in *. unfold Read. simpl.
  pose proof (read_available_eq wp rp Hw Hr) as Hocc.
  set (occ := read_available C wp rp) in *.
  set (len := if occ <? n then occ else n).
  assert (len = Z.min n occ) as Hlen by (subst len; destruct (Z.ltb_spec occ n); lia).
  rewrite cyclic_span_take.
  replace (Z.to_nat n `min` Z.to_nat occ)%nat with (Z.to_nat len) by lia.
  destruct (Z.eqb_spec len 0) as [H0|H0].
  { exists (MkBuffer buf wp rp). rewrite H0. simpl.
    split_and!; try done.
    - unfold cyclic_span. fold occ.
      destruct (decide (n = 0)) as [->|]; [done|].
      replace (Z.to_nat occ) with 0%nat by lia. simpl. by destruct (Z.to_nat n). }
  eexists. split; [f_equal|split_and!]; simpl.
  - rewrite cyclic_span_split by lia. unfold memcpy_from. size_simpl.
    destruct (Z.gtb_spec len (Z.min len (C - rp))) as [Hgt|Hle].
    + size_simpl. f_equal.
      * f_equal. lia.
      * rewrite drop_0. f_equal. lia.
    + replace (Z.to_nat len - (length buf - Z.to_nat rp))%nat with 0%nat by lia.
      rewrite take_0, app_nil_r. f_equal. lia.
  - split; [done|]. simpl. split; [lia|].
    size_simpl. apply Z.mod_pos_bound. lia.
  - done.
  - done.
  - size_simpl. rewrite mod_once by lia.
    replace (drop (Z.to_nat n) (cyclic_span buf (Z.to_nat rp) (Z.to_nat occ)))
      with (drop (Z.to_nat len) (cyclic_span buf (Z.to_nat rp) (Z.to_nat occ))).
    2:{ destruct (decide (n ≤ occ)); [do 2 f_equal; lia|].
        rewrite !drop_ge; [done | rewrite cyclic_span_length; lia..]. }
    rewrite cyclic_span_drop by lia.
    assert (0 ≤ (if decide (rp + len < C) then rp + len else rp + len - C) < C)
      as Hr' by (repeat case_decide; lia).
    rewrite (read_available_eq wp _ Hw Hr').
    f_equal; repeat case_decide; lia.
Qed.

(** The storage [Write] leaves behind, for a count [len] that fits the
    data: the two [memcpy] calls are one cyclic store. *)
Lemma Write_buffer_eq (buf : list A) wp data len :
  length buf = Z.to_nat C → 0 ≤ wp < C →
  0 < len ≤ Z.of_nat (length data) →
  let firstPart := Z.min len (C - wp) in
  (if len >? firstPart
   then memcpy_to (memcpy_to buf wp data firstPart) 0
                  (drop (Z.to_nat firstPart) data) (len - firstPart)
   else memcpy_to buf wp data firstPart)
  = cyclic_store buf (Z.to_nat wp) (take (Z.to_nat len) data).
Proof using C_pos.
  intros Hl Hw Hlen fp. unfold cyclic_store, memcpy_to.
  rewrite length_take.
  replace ((Z.to_nat len `min` length data) `min`
           (length buf - Z.to_nat wp))%nat with (Z.to_nat fp) by lia.
  rewrite take_take. replace (Z.to_nat fp `min` Z.to_nat len)%nat
    with (Z.to_nat fp) by lia.
  destruct (Z.gtb_spec len fp) as [Hgt|Hle].
  - simpl. do 2 f_equal. rewrite take_drop_commute. do 2 f_equal. lia.
  - rewrite (drop_ge (take _ _)) by (rewrite length_take; lia). done.
Qed.

(** [Write] appends the leading [min length free] samples of its data. *)
Lemma Write_spec b data :
  ring_ok C b →
  let n := Z.min (Z.of_nat (length data)) (C - 1 - Available C b) in
  let b' := after_write C b (take (Z.to_nat n) data) in
  Write C b data = (b', n) ∧
  ring_ok C b' ∧
  contents C b' = contents C b ++ take (Z.to_nat n) data.
Proof using C_pos C_max.
  intros Hok n b'. pose proof (Available_range b Hok) as Hav.
  pose proof C_bound as HC. subst b'.
  destruct b as [buf wp rp]. destruct Hok as (Hl & Hw & Hr).
  unfold contents, Available, after_write in *. simpl in *.
  unfold Write. simpl.
  rewrite write_available_eq by done.
  pose proof (read_available_eq wp rp Hw Hr) as Hocc.
  set (occ := read_available C wp rp) in *.
  set (len := if C - 1 - occ <? Z.of_nat (length data)
              then C - 1 - occ else Z.of_nat (length data)).
  assert (len = n) as Hlen
    by (subst len n; destruct (Z.ltb_spec (C - 1 - occ) (Z.of_nat (length data))); lia).
  clearbody len. subst len.
  set (d := take (Z.to_nat n) data).
  assert (length d = Z.to_nat n) as Hd
    by (subst d; rewrite length_take; lia).
  rewrite Hd, Z2Nat.id by lia.
  destruct (Z.eqb_spec n 0) as [H0|H0].
  { assert (d = []) as -> by (apply nil_length_inv; lia).
    rewrite H0, Z.add_0_r, Z.mod_small, app_nil_r by lia.
    unfold cyclic_store. simpl. by split_and!. }
  size_simpl.
  rewrite Write_buffer_eq by lia. fold d.
  split; [reflexivity|]. simpl. split.
  - split; simpl; [by rewrite cyclic_store_length|].
    split; [|lia]. apply Z.mod_pos_bound. lia.
  - rewrite mod_once by lia.
    assert (0 ≤ (if decide (wp + n < C) then wp + n else wp + n - C) < C)
      as Hw' by (repeat case_decide; lia).
    rewrite (read_available_eq _ rp Hw' Hr).
    rewrite <-(cyclic_store_span buf (Z.to_nat rp) (Z.to_nat occ) d) by lia.
    rewrite Hl. f_equal.
    + f_equal. repeat case_decide; lia.
    + repeat case_decide; lia.
Qed.

Lemma Clear_spec b :
  ring_ok C b → ring_ok C (Clear b) ∧ contents C (Clear b) = [].
Proof using C_pos C_max.
  intros (Hl & _ & _). split.
  - split; [done|]. simpl. lia.
  - unfold contents, Available. simpl.
    rewrite read_available_eq by lia. by case_decide.
Qed.

Lemma create_spec (zero : A) :
  ring_ok C (create C zero) ∧ contents C (create C zero) = [].
Proof using C_pos C_max.
  split.
  - split; [apply length_replicate|]. simpl. lia.
  - unfold contents, Available. simpl.
    rewrite read_available_eq by lia. by case_decide.
Qed.

(** Every operation keeps the cursors inside the storage. *)
Lemma exec_ring_ok b o :
  ring_ok C b →
  match o with OpRead n => 0 ≤ n < SIZE_MODULUS | _ => True end →
  ring_ok C (exec C b o).1.
Proof using C_pos C_max.
  intros Hok Ho. destruct o as [d|n|]; simpl.
  - destruct (Write_spec b d Hok) as (-> & Hok' & _). done.
  - destruct (Read_spec b n Hok) as (b' & -> & Hok' & _); [lia|done].
  - by apply Clear_spec.
Qed.

Lemma run_ring_ok (ops : list (op A)) : ∀ b,
  ring_ok C b → well_typed ops → ring_ok C (run C b ops).1.
Proof using C_pos C_max.
  induction ops as [|o ops IH]; intros b Hok Hty; [done|].
  apply Forall_cons in Hty as [Ho Hty]. simpl.
  pose proof (exec_ring_ok b o Hok Ho) as Hok1.
  destruct (exec C b o) as [b1 r]. simpl in Hok1.
  specialize (IH b1 Hok1 Hty).
  destruct (run C b1 ops) as [b2 rs]. done.
Qed.

(** The ring buffer answers every call like the unbounded queue as long
    as no write finds too little room. *)
Lemma run_refines_fifo (ops : list (op A)) : ∀ b,
  ring_ok C b →
  within_capacity C (Available C b) ops = true →
  (run C b ops).2 = fifo_run (contents C b) ops.
Proof using C_pos C_max.
  induction ops as [|o ops IH]; intros b Hok Hcap; [done|].
  pose proof (Available_range b Hok) as Hav.
  destruct o as [d|n|]; simpl in *; [| |done].
  - apply andb_prop in Hcap as [Hfit Hcap]. apply bool_decide_eq_true in Hfit.
    destruct (Write_spec b d Hok) as (HW & Hok' & Hc).
    rewrite Z.min_l in HW, Hc, Hok' by lia. rewrite Nat2Z.id in HW, Hc, Hok'.
    rewrite firstn_all in HW, Hc, Hok'. rewrite HW.
    specialize (IH _ Hok'). rewrite Hc in IH.
    rewrite <-(contents_length _ Hok') in IH.
    rewrite Hc, length_app, Nat2Z.inj_add, (contents_length _ Hok) in IH.
    specialize (IH Hcap).
    destruct (run C _ ops) as [b2 rs]. simpl in *. by rewrite IH.
  - apply andb_prop in Hcap as [Hn Hcap]. apply bool_decide_eq_true in Hn.
    destruct (Read_spec b n Hok) as (b' & HR & Hok' & _ & _ & Hc); [lia|].
    rewrite HR. specialize (IH _ Hok'). rewrite Hc in IH.
    rewrite <-(contents_length _ Hok') in IH.
    rewrite Hc, length_drop in IH.
    pose proof (contents_length _ Hok) as Hlen.
    replace (Z.of_nat (length (contents C b) - Z.to_nat n))
      with (Available C b - Z.min n (Available C b)) in IH by lia.
    specialize (IH Hcap).
    destruct (run C _ ops) as [b2 rs]. simpl in *. by rewrite IH.
Qed.

Lemma samples_read_got (out : list A) rs :
  samples_read (Got out :: rs) = out ++ samples_read rs.
Proof. reflexivity. Qed.

Lemma samples_read_written n (rs : list (result A)) :
  samples_read (Written n :: rs) = samples_read rs.
Proof. reflexivity. Qed.

Lemma samples_written_write (d : list A) ops :
  samples_written (OpWrite d :: ops) = d ++ samples_written ops.
Proof. reflexivity. Qed.

Lemma samples_written_read n (ops : list (op A)) :
  samples_written (OpRead n :: ops) = samples_written ops.
Proof. reflexivity. Qed.

(** In the reference queue the reads hand out, in order, a prefix of
    what the queue held followed by what was written. *)
Lemma fifo_reads_prefix (ops : list (op A)) : ∀ q out,
  within_capacity C out ops = true →
  samples_read (fifo_run q ops) `prefix_of` q ++ samples_written ops.
Proof.
  induction ops as [|o ops IH]; intros q out Hcap.
  { by apply prefix_nil. }
  destruct o as [d|n|]; [| |done];
    cbn [within_capacity fifo_run] in *;
    apply andb_prop in Hcap as [_ Hcap].
  - rewrite samples_read_written, samples_written_write, app_assoc.
    by eapply IH.
  - rewrite samples_read_got, samples_written_read.
    replace (q ++ samples_written ops)
      with (take (Z.to_nat n) q ++ drop (Z.to_nat n) q ++ samples_written ops)
      by (by rewrite app_assoc, take_drop).
    apply prefix_app. by eapply IH.
Qed.

Lemma after_write_nil b : ring_ok C b → after_write C b [] = b.
Proof using C_pos.
  intros (_ & Hw & _). destruct b as [buf wp rp]. unfold after_write. simpl in *.
  by rewrite Z.add_0_r, Z.mod_small.
Qed.

Lemma Available_empty_iff b :
  ring_ok C b → Available C b = 0 ↔ writePos b = readPos b.
Proof using C_pos C_max.
  intros (_ & Hw & Hr). unfold Available.
  rewrite read_available_eq by done. case_decide; lia.
Qed.

End RingFacts.

Section RingClaims.

Import RingBuffer.
Context {A : Type}.
Implicit Types b : AudioRingBuffer A.

(** C1. For a ring buffer of capacity [C] and every sequence of [Write]
    and [Read] calls whose outstanding sample count never exceeds
    [C - 1], every call answers as the unbounded first-in first-out
    queue does: each write is taken whole, each read returns the oldest
    samples written and not yet read, in order, and all samples read,
    in order, are a prefix of all samples written -- whether or not a
    copy wraps past the end of the storage. *)
Theorem ring_buffer_fifo (C : Z) (zero : A) (ops : list (op A)) :
  0 < C → C ≤ 2 ^ 63 →
  within_capacity C 0 ops = true →
  (run C (create C zero) ops).2 = fifo_run [] ops ∧
  samples_read (run C (create C zero) ops).2 `prefix_of` samples_written ops.
Proof.
  intros HC Hmax Hcap.
  destruct (create_spec C HC Hmax zero) as [Hok Hc].
  assert ((run C (create C zero) ops).2 = fifo_run [] ops) as Hrun.
  { rewrite <-Hc. by apply run_refines_fifo. }
  split; [done|]. rewrite Hrun.
  apply (fifo_reads_prefix C ops [] 0 Hcap).
Qed.

(** C2. A [Write] on a buffer holding [occupied] samples has
    [capacity - 1 - occupied] free cells; when the data is longer, it
    stores exactly the leading [available] samples, returns [available],
    and what follows them in the data has no effect at all. *)
Theorem Write_truncates (C : Z) b (data : list A) :
  0 < C → C ≤ 2 ^ 63 → ring_ok C b →
  let available := C - 1 - Available C b in
  write_available C (writePos b) (readPos b) = available ∧
  (available < Z.of_nat (length data) →
   Write C b data
     = (after_write C b (take (Z.to_nat available) data), available) ∧
   Write C b data = Write C b (take (Z.to_nat available) data) ∧
   contents C (Write C b data).1
     = contents C b ++ take (Z.to_nat available) data).
Proof.
  intros HC Hmax Hok available.
  pose proof (Available_range C HC Hmax b Hok) as Hav.
  split.
  { destruct Hok as (_ & Hw & Hr). by apply write_available_eq. }
  intros Hlt.
  destruct (Write_spec C HC Hmax b data Hok) as (HW & _ & Hc).
  rewrite Z.min_r in HW, Hc by (subst available; lia). fold available in HW, Hc.
  destruct (Write_spec C HC Hmax b (take (Z.to_nat available) data) Hok)
    as (HW' & _ & _).
  rewrite length_take in HW'.
  rewrite Z.min_l in HW' by (subst available; lia).
  replace (Z.to_nat (Z.of_nat (Z.to_nat available `min` length data)))
    with (Z.to_nat available) in HW' by lia.
  rewrite take_take, Nat.min_id in HW'.
  replace (Z.of_nat (Z.to_nat available `min` length data))
    with available in HW' by (subst available; lia).
  rewrite HW, HW'. split_and!; [done..|]. simpl. exact Hc.
Qed.

(** C5. Capacity 10, starting empty: after a write of 9 samples a write
    of 5 more returns 0 and leaves the buffer as it was, with
    [Available] still 9; every further write returns 0 as well, until a
    read has freed cells. *)
Theorem overflow_at_capacity_ten (zero : A) (d1 d2 : list A) :
  length d1 = 9%nat → length d2 = 5%nat →
  let b1 := (Write 10 (create 10 zero) d1).1 in
  let b2 := (Write 10 b1 d2).1 in
  (Write 10 (create 10 zero) d1).2 = 9 ∧
  (Write 10 b1 d2).2 = 0 ∧
  Available 10 b2 = 9 ∧
  b2 = b1 ∧
  (∀ d, Write 10 b1 d = (b1, 0)) ∧
  (∀ k d, 0 < k < SIZE_MODULUS →
          (Write 10 (Read 10 b1 k).1 d).2
            = Z.min (Z.of_nat (length d)) (Z.min k 9)).
Proof.
  intros H1 H2 b1 b2.
  assert (0 < 10) as HC by lia. assert (10 ≤ 2 ^ 63) as Hmax by done.
  destruct (create_spec 10 HC Hmax zero) as [Hok0 Hc0].
  pose proof (contents_length 10 HC Hmax _ Hok0) as Hl0. rewrite Hc0 in Hl0.
  destruct (Write_spec 10 HC Hmax _ d1 Hok0) as (HW1 & Hok1 & Hc1).
  rewrite <-Hl0, H1 in HW1, Hok1, Hc1.
  change (Z.of_nat 9 `min` (10 - 1 - Z.of_nat (length []))) with 9
    in HW1, Hok1, Hc1.
  change (Z.to_nat 9) with 9%nat in HW1, Hok1, Hc1.
  rewrite Hc0 in Hc1. simpl in Hc1.
  assert (take 9 d1 = d1) as Ht by (by rewrite <-H1, firstn_all).
  rewrite Ht in HW1, Hok1, Hc1.
  assert (b1 = after_write 10 (create 10 zero) d1) as Hb1
    by (subst b1; by rewrite HW1).
  rewrite <-Hb1 in Hok1, Hc1.
  pose proof (contents_length 10 HC Hmax _ Hok1) as Hl1.
  rewrite Hc1, H1 in Hl1. simpl in Hl1.
  assert (∀ d, Write 10 b1 d = (b1, 0)) as Hfull.
  { intros d. destruct (Write_spec 10 HC Hmax _ d Hok1) as (HW & _ & _).
    rewrite <-Hl1 in HW. rewrite Z.min_r in HW by lia.
    change (10 - 1 - Z.of_nat 9) with 0 in HW.
    change (take (Z.to_nat 0) d) with (@nil A) in HW.
    by rewrite (after_write_nil 10 HC _ Hok1) in HW. }
  assert (b2 = b1) as Hb2 by (subst b2; by rewrite Hfull).
  split_and!.
  - by rewrite HW1.
  - by rewrite Hfull.
  - by rewrite Hb2, <-Hl1.
  - done.
  - done.
  - intros k d Hk.
    destruct (Read_spec 10 HC Hmax b1 k Hok1) as (b' & HR & Hok' & _ & _ & Hc');
      [lia|].
    rewrite HR. simpl.
    destruct (Write_spec 10 HC Hmax _ d Hok') as (-> & _ & _). simpl.
    rewrite <-(contents_length 10 HC Hmax _ Hok'), Hc', length_drop, Hc1, H1.
    lia.
Qed.

End RingClaims.

Section RingInstances.

Import RingBuffer.

(** Capacity 5: the second write wraps past the end of the storage. *)
Example ring_wrap_demo :
  run 5 (create 5 0%nat)
      [OpWrite [1; 2; 3]%nat; OpRead 2; OpWrite [4; 5; 6]%nat; OpRead 10]
  = (MkBuffer [6; 2; 3; 4; 5]%nat 1 1,
     [Written 3; Got [1; 2]%nat; Written 3; Got [3; 4; 5; 6]%nat]).
Proof. reflexivity. Qed.

Lemma ring_buffer_fifo_witness :
  let ops := [OpWrite [1; 2; 3]%nat; OpRead 2; OpWrite [4; 5; 6]%nat; OpRead 10] in
  (0 < 5 ∧ 5 ≤ 2 ^ 63 ∧ within_capacity 5 0 ops = true) ∧
  (run 5 (create 5 0%nat) ops).2 = fifo_run [] ops ∧
  samples_read (run 5 (create 5 0%nat) ops).2 `prefix_of` samples_written ops.
Proof.
  split.
  - split_and!; [lia | done | reflexivity].
  - apply (ring_buffer_fifo 5 0%nat); [lia | done | reflexivity].
Defined.

Lemma Write_truncates_witness :
  let b := MkBuffer [1; 2; 3; 0; 0]%nat 3 0 in
  (0 < 5 ∧ 5 ≤ 2 ^ 63 ∧ ring_ok 5 b ∧ 5 - 1 - Available 5 b < 3) ∧
  Write 5 b [7; 8; 9]%nat = (MkBuffer [1; 2; 3; 7; 0]%nat 4 0, 1) ∧
  Write 5 b [7; 8; 9]%nat = Write 5 b [7]%nat.
Proof.
  assert (ring_ok 5 (MkBuffer [1; 2; 3; 0; 0]%nat 3 0)) as Hok
    by (split_and!; simpl; [reflexivity | lia..]).
  split.
  - split_and!; [lia | done | exact Hok | reflexivity].
  - destruct (Write_truncates 5 (MkBuffer [1; 2; 3; 0; 0]%nat 3 0)
                [7; 8; 9]%nat) as [_ Hw]; [lia | done | exact Hok |].
    destruct Hw as (Hw1 & Hw2 & _); [reflexivity|].
    split; [exact Hw1 | exact Hw2].
Defined.

Lemma overflow_at_capacity_ten_witness :
  let d1 := [1; 2; 3; 4; 5; 6; 7; 8; 9]%nat in
  let d2 := [10; 11; 12; 13; 14]%nat in
  (length d1 = 9%nat ∧ length d2 = 5%nat) ∧
  (Write 10 (Write 10 (create 10 0%nat) d1).1 d2).2 = 0 ∧
  Available 10 (Write 10 (Write 10 (create 10 0%nat) d1).1 d2).1 = 9.
Proof.
  split; [split; reflexivity|].
  destruct (overflow_at_capacity_ten 0%nat
              [1; 2; 3; 4; 5; 6; 7; 8; 9]%nat [10; 11; 12; 13; 14]%nat)
    as (_ & H2 & H3 & _); [reflexivity..|].
  split; [exact H2 | exact H3].
Defined.

End RingInstances.

(** * Worker queue: proofs *)

Section WorkerFacts.

Import Worker.
Context {A : Type}.
Implicit Types w : WhisperWorker A.
Implicit Types evs : list (event A).

Lemma run_app evs1 evs2 w :
  run w (evs1 ++ evs2) = run w evs1 ≫= λ w', run w' evs2.
Proof.
  revert w. induction evs1 as [|e evs1 IH]; intros w; [done|].
  simpl. destruct (step w e); [apply IH | done].
Qed.

Lemma enqueued_app evs1 evs2 :
  enqueued (evs1 ++ evs2) = enqueued evs1 ++ @enqueued A evs2.
Proof. unfold enqueued. apply omap_app. Qed.

Lemma step_inv w e w' : worker_inv w → step w e = Some w' → worker_inv w'.
Proof.
  unfold worker_inv. intros [Hj Hx] Hstep.
  destruct w as [q stop t j log]. simpl in *.
  destruct e; simpl in Hstep; unfold ProcessQueue_step, Stop_return in Hstep;
    simpl in Hstep;
    repeat (simplify_eq; simpl in *;
            match goal with
            | H : context [match ?x with _ => _ end] |- _ => destruct x eqn:?
            end);
    simplify_eq; simpl in *; split; intros; simplify_eq; try done;
    auto; by specialize (Hj eq_refl).
Qed.

Lemma run_inv evs : ∀ w w', worker_inv w → run w evs = Some w' → worker_inv w'.
Proof.
  induction evs as [|e evs IH]; intros w w' Hinv Hrun; simpl in Hrun.
  { by simplify_eq. }
  destruct (step w e) as [w1|] eqn:Hstep; [|done].
  eapply IH; [|done]. by eapply step_inv.
Qed.

Lemma reachable_inv w : reachable w → worker_inv w.
Proof.
  intros [evs Hrun]. eapply run_inv; [|done].
  split; simpl; intros; done.
Qed.

Lemma reachable_run w evs w' :
  reachable w → run w evs = Some w' → reachable w'.
Proof.
  intros [evs0 H0] Hrun. exists (evs0 ++ evs).
  rewrite run_app, H0. done.
Qed.

(** The thread running alone is a run of [EvWorker] events. *)
Lemma run_thread_trace fuel : ∀ w,
  ∃ k, run w (replicate k EvWorker) = Some (run_thread fuel w).
Proof.
  induction fuel as [|fuel IH]; intros w; simpl.
  { by exists 0%nat. }
  destruct (ProcessQueue_step w) as [w1|] eqn:Hstep.
  - destruct (IH w1) as [k Hk]. exists (S k). simpl. by rewrite Hstep.
  - by exists 0%nat.
Qed.

(** What every event of a trace preserves: the chunks processed, in
    flight and queued are, in this order, the chunks enqueued. *)
Lemma step_conserves w e w' :
  step w e = Some w' →
  processed w' ++ in_flight w' ++ audioQueue w'
    = (processed w ++ in_flight w ++ audioQueue w) ++ enqueued [e].
Proof.
  intros Hstep. destruct w as [q stop t j log].
  destruct e; simpl in Hstep; unfold ProcessQueue_step, Stop_return in Hstep;
    simpl in Hstep; unfold in_flight, enqueued;
    repeat (simplify_eq; simpl in *;
            match goal with
            | H : context [match ?x with _ => _ end] |- _ => destruct x eqn:?
            end);
    simplify_eq; simpl in *; rewrite ?app_nil_r, <-?app_assoc; done.
Qed.

Lemma run_conserves evs : ∀ w w',
  run w evs = Some w' →
  processed w' ++ in_flight w' ++ audioQueue w'
    = (processed w ++ in_flight w ++ audioQueue w) ++ enqueued evs.
Proof.
  induction evs as [|e evs IH]; intros w w' Hrun; simpl in Hrun.
  { simplify_eq. by rewrite app_nil_r. }
  destruct (step w e) as [w1|] eqn:Hstep; [|done].
  rewrite (IH _ _ Hrun), (step_conserves _ _ _ Hstep).
  change (e :: evs) with ([e] ++ evs). rewrite enqueued_app.
  by rewrite <-!app_assoc.
Qed.

Lemma run_thread_S fuel w :
  run_thread (S fuel) w
    = match ProcessQueue_step w with
      | Some w' => run_thread fuel w'
      | None => w
      end.
Proof. reflexivity. Qed.

Lemma run_thread_exited fuel w :
  workerThread w = Exited → run_thread fuel w = w.
Proof.
  intros Hx. destruct fuel; [done|]. simpl.
  unfold ProcessQueue_step. by rewrite Hx.
Qed.

(** Once the flag is set the thread leaves [ProcessQueue] within two
    steps: it finishes the chunk in flight, if any, and exits at the
    loop test or at the wait. *)
Lemma run_thread_stopped fuel w :
  stopRequested w = true → (2 ≤ fuel)%nat →
  workerThread (run_thread fuel w) = Exited.
Proof.
  intros Hstop Hfuel. destruct fuel as [|[|fuel]]; [lia..|].
  destruct w as [q stop t j log]. simpl in Hstop. subst stop.
  destruct t; simpl; unfold ProcessQueue_step, wait_condition; simpl;
    rewrite ?orb_true_r; simpl;
    try (by apply (run_thread_exited _ (MkWorker _ _ Exited _ _)));
    by destruct fuel.
Qed.

(** With no stop requested, the waiting thread works the whole queue
    off, head first, and suspends on the empty queue. *)
Lemma run_thread_drains_waiting q : ∀ log j fuel,
  (3 * length q ≤ fuel)%nat →
  run_thread fuel (MkWorker q false AtWait j log)
    = MkWorker [] false (@AtWait A) j (log ++ q).
Proof.
  induction q as [|c q IH]; intros log j fuel Hfuel.
  { rewrite app_nil_r. by destruct fuel. }
  simpl in Hfuel. destruct fuel as [|[|[|fuel]]]; [lia..|].
  rewrite run_thread_S; simpl; unfold set_thread; simpl.
  rewrite IH by lia. by rewrite <-app_assoc.
Qed.

Lemma run_thread_drains w fuel :
  stopRequested w = false → workerThread w ≠ Exited →
  (3 * length (audioQueue w) + 2 ≤ fuel)%nat →
  run_thread fuel w
    = MkWorker [] false AtWait (joinable w)
               (processed w ++ in_flight w ++ audioQueue w).
Proof.
  intros Hstop Hx Hfuel. destruct w as [q stop t j log]. simpl in *. subst stop.
  destruct t as [| |c|]; [| | |done]; unfold in_flight; simpl.
  - destruct fuel as [|fuel]; [lia|].
    rewrite run_thread_S; simpl; unfold set_thread; simpl.
    by rewrite run_thread_drains_waiting by lia.
  - by rewrite run_thread_drains_waiting by lia.
  - destruct fuel as [|[|fuel]]; [lia..|].
    rewrite run_thread_S; simpl; unfold set_thread; simpl.
    rewrite run_thread_drains_waiting by lia. by rewrite <-app_assoc.
Qed.

(** A whole [Stop()] call is a trace: the request, the thread's own
    steps, the return. *)
Lemma Stop_reachable fuel w w1 :
  reachable w → Stop fuel w = Some w1 →
  reachable w1 ∧ joinable w1 = false.
Proof.
  intros Hw HS. unfold Stop in HS.
  assert (reachable (Stop_request w)) as H1
    by (by apply (reachable_run w [EvStopRequest])).
  destruct (run_thread_trace fuel (Stop_request w)) as [k Hk].
  pose proof (reachable_run _ _ _ H1 Hk) as H2.
  split.
  - apply (reachable_run _ [EvStopReturn] _ H2). simpl. by rewrite HS.
  - unfold Stop_return in HS.
    destruct (joinable (run_thread fuel (Stop_request w))) eqn:Hj.
    + destruct (workerThread _); by simplify_eq.
    + by simplify_eq.
Qed.

(** [Stop()] returns: with the flag set the thread exits, and [join] ends. *)
Lemma Stop_returns fuel w : (2 ≤ fuel)%nat → is_Some (Stop fuel w).
Proof.
  intros Hfuel. unfold Stop, Stop_return.
  rewrite (run_thread_stopped fuel (Stop_request w)) by done.
  destruct (joinable _); by eexists.
Qed.

(** After the thread has exited no event moves it or extends the log. *)
Lemma run_exited evs : ∀ w w',
  workerThread w = Exited → run w evs = Some w' →
  processed w' = processed w ∧ workerThread w' = Exited.
Proof.
  induction evs as [|e evs IH]; intros w w' Hx Hrun; simpl in Hrun.
  { by simplify_eq. }
  destruct (step w e) as [w1|] eqn:Hstep; [|done].
  assert (processed w1 = processed w ∧ workerThread w1 = Exited) as [Hp Hx1].
  { destruct w as [q stop t j log]. simpl in Hx. subst t.
    destruct e; simpl in Hstep; unfold ProcessQueue_step, Stop_return in Hstep;
      simpl in Hstep; try destruct j; by simplify_eq. }
  destruct (IH _ _ Hx1 Hrun) as [Hp' Hx']. by rewrite Hp', Hp.
Qed.

End WorkerFacts.

Section WorkerClaims.

Import Worker.
Context {A : Type}.
Implicit Types w : WhisperWorker A.
Implicit Types evs : list (event A).

(** C3, as amended. The worker suspends in the wait until the queue is
    non-empty or a stop has been requested. Once woken it exits if and
    only if stop has been requested, whatever the queue holds, leaving
    queue and log untouched. Woken with no stop requested it pops exactly
    the head of the queue in one atomic step, then hands that one chunk
    to the processing step, and is back at the loop test, which sends it
    to the wait again or, with a stop requested by then, out of the
    loop. *)
Theorem worker_wake_behaviour w :
  workerThread w = AtWait →
  (ProcessQueue_step w = None ↔ wait_condition w = false) ∧
  (wait_condition w = true →
   (exits_on_wake w ↔ stopRequested w = true) ∧
   (stopRequested w = false →
    pops_head_on_wake w ∧
    ∀ w1, ProcessQueue_step w = Some w1 →
      ∃ chunk, audioQueue w = chunk :: audioQueue w1 ∧
               workerThread w1 = Processing chunk ∧
               processes_then_loops w1 chunk ∧
               ∀ w2, ProcessQueue_step w1 = Some w2 →
                 workerThread w2 = AtLoopTest ∧
                 ProcessQueue_step w2
                   = Some (set_thread (if stopRequested w2 then Exited
                                       else AtWait) w2))).
Proof.
  intros Ht. destruct w as [q stop t j log]. simpl in Ht. subst t.
  unfold exits_on_wake, pops_head_on_wake, processes_then_loops,
    ProcessQueue_step, wait_condition. simpl.
  destruct q as [|c q], stop; simpl; split; try done;
    try (intros _; split; [split; intros; by simplify_eq|]); try done.
  intros _. split; [by eexists _, _|].
  intros w1 ?. simplify_eq. exists c. simpl. split_and!; try done.
  intros w2 ?. simplify_eq. simpl. done.
Qed.

(** C4. Along every interleaving of [EnqueueAudio] calls, worker steps
    and stop requests, the chunks handed to the processing step, the
    chunk in flight and the chunks still queued are, in this order,
    exactly the chunks enqueued: the worker processes a prefix of the
    enqueue order, one chunk at a time. With no stop requested, the
    worker left to run processes every enqueued chunk, in enqueue
    order, however long the queue has grown. *)
Theorem worker_dispatch_order evs w :
  run create evs = Some w →
  processed w ++ in_flight w ++ audioQueue w = enqueued evs ∧
  processed w `prefix_of` enqueued evs ∧
  (length (in_flight w) ≤ 1)%nat ∧
  (stopRequested w = false →
   ∀ fuel, (3 * length (audioQueue w) + 2 ≤ fuel)%nat →
           processed (run_thread fuel w) = enqueued evs).
Proof.
  intros Hrun. pose proof (run_conserves _ _ _ Hrun) as Hc. simpl in Hc.
  split_and!.
  - done.
  - rewrite <-Hc. by apply prefix_app_r.
  - unfold in_flight. destruct (workerThread w); simpl; lia.
  - intros Hstop fuel Hfuel.
    assert (workerThread w ≠ Exited) as Hx.
    { intros Hx. assert (reachable w) as Hr by (by exists evs).
      apply reachable_inv in Hr as [_ Hr]. rewrite (Hr Hx) in Hstop. done. }
    rewrite run_thread_drains by done. simpl. done.
Qed.

(** C7. [Stop()] returns, and once it has returned, whatever happens
    next -- further [EnqueueAudio] calls, further stops -- no chunk
    reaches the processing step: the log stays as it was, the thread stays
    exited and cannot take a step, and the chunks enqueued afterwards pile
    up in the queue. *)
Theorem no_dispatch_after_Stop w fuel :
  reachable w → (2 ≤ fuel)%nat →
  ∃ w1, Stop fuel w = Some w1 ∧
    ∀ evs w2, run w1 evs = Some w2 →
      processed w2 = processed w1 ∧
      workerThread w2 = Exited ∧
      ProcessQueue_step w2 = None ∧
      audioQueue w2 = audioQueue w1 ++ enqueued evs.
Proof.
  intros Hw Hfuel. destruct (Stop_returns fuel w Hfuel) as [w1 HS].
  exists w1. split; [done|]. intros evs w2 Hrun.
  destruct (Stop_reachable _ _ _ Hw HS) as [Hr1 Hj1].
  destruct (reachable_inv _ Hr1) as [Hx1 _]. specialize (Hx1 Hj1).
  destruct (run_exited _ _ _ Hx1 Hrun) as [Hp Hx2].
  pose proof (run_conserves _ _ _ Hrun) as Hc.
  unfold in_flight in Hc. rewrite Hx1, Hx2, Hp in Hc. simpl in Hc.
  rewrite <-app_assoc in Hc. apply app_inv_head in Hc.
  split_and!; try done.
  unfold ProcessQueue_step. by rewrite Hx2.
Qed.

(** C8. [Stop()] returns, and a second [Stop()] after it is a no-op: it
    returns as well and leaves queue, flag, thread and log exactly as
    the first call left them. *)
Theorem Stop_idempotent w fuel :
  reachable w → (2 ≤ fuel)%nat →
  ∃ w1, Stop fuel w = Some w1 ∧ ∀ fuel', Stop fuel' w1 = Some w1.
Proof.
  intros Hw Hfuel. destruct (Stop_returns fuel w Hfuel) as [w1 HS].
  exists w1. split; [done|]. intros fuel'.
  destruct (Stop_reachable _ _ _ Hw HS) as [Hr1 Hj1].
  destruct (reachable_inv _ Hr1) as [Hx1 Hs1].
  specialize (Hx1 Hj1). specialize (Hs1 Hx1).
  destruct w1 as [q stop t j log]. simpl in *. subst.
  unfold Stop. change (Stop_request _) with (MkWorker q true Exited false log).
  by rewrite run_thread_exited.
Qed.

End WorkerClaims.

Section WorkerInstances.

Import Worker.

Local Abbreviation c1 := (MkChunk [11; 12]%nat 1).
Local Abbreviation c2 := (MkChunk [21]%nat 2).
Local Abbreviation c3 := (MkChunk [31; 32; 33]%nat 3).

(** Chunks with timestamps 1, 2, 3: the worker is still busy with the
    first when the third arrives, and then works all three off in
    order. *)
Example timestamps_in_order :
  let evs := [EvEnqueue [11; 12]%nat 1; EvEnqueue [21]%nat 2; EvWorker;
              EvWorker; EvEnqueue [31; 32; 33]%nat 3] in
  run create evs = Some (MkWorker [c2; c3] false (Processing c1) true []) ∧
  (run create evs ≫= λ w, Some (timestamp <$> processed (run_thread 8 w)))
    = Some [1; 2; 3].
Proof. split; reflexivity. Qed.

(** Stop requested while two chunks are queued: the woken thread exits
    and pops nothing. *)
Lemma worker_exit_counterexample :
  let w := MkWorker [c1; c2] true AtWait true [] in
  wait_condition w = true ∧
  ¬ ((exits_on_wake w ↔ stopRequested w = true ∧ audioQueue w = []) ∧
     (¬ (stopRequested w = true ∧ audioQueue w = []) → pops_head_on_wake w)).
Proof.
  split; [reflexivity|].
  intros [[Hexit _] _].
  assert (exits_on_wake (MkWorker [c1; c2] true AtWait true [])) as Hx
    by reflexivity.
  destruct (Hexit Hx) as [_ Hq]. discriminate Hq.
Qed.

Lemma worker_wake_behaviour_witness :
  let w := MkWorker [c1; c2] false AtWait true [] in
  workerThread w = AtWait ∧ wait_condition w = true ∧
  (exits_on_wake w ↔ stopRequested w = true) ∧
  pops_head_on_wake w.
Proof.
  split; [reflexivity|]. split; [reflexivity|].
  destruct (worker_wake_behaviour (MkWorker [c1; c2] false AtWait true []))
    as [_ Hw]; [reflexivity|].
  destruct Hw as [Hexit Hpop]; [reflexivity|].
  split; [exact Hexit|]. apply Hpop. reflexivity.
Defined.

Lemma worker_dispatch_order_witness :
  let evs := [EvEnqueue [11; 12]%nat 1; EvEnqueue [21]%nat 2; EvWorker;
              EvWorker; EvEnqueue [31; 32; 33]%nat 3] in
  let w := MkWorker [c2; c3] false (Processing c1) true [] in
  run create evs = Some w ∧
  processed w ++ in_flight w ++ audioQueue w = enqueued evs ∧
  processed (run_thread 8 w) = enqueued evs.
Proof.
  split; [reflexivity|].
  destruct (worker_dispatch_order
              [EvEnqueue [11; 12]%nat 1; EvEnqueue [21]%nat 2; EvWorker;
               EvWorker; EvEnqueue [31; 32; 33]%nat 3]
              (MkWorker [c2; c3] false (Processing c1) true []))
    as (H1 & _ & _ & H4); [reflexivity|].
  split; [exact H1|]. apply H4; [reflexivity | simpl; lia].
Defined.

Lemma no_dispatch_after_Stop_witness :
  let w := MkWorker [c2] false (Processing c1) true [] in
  let w1 := MkWorker [c2] true Exited false [c1] in
  let evs := [EvEnqueue [31; 32; 33]%nat 3; EvStopRequest; EvStopReturn] in
  let w2 := MkWorker [c2; c3] true Exited false [c1] in
  (reachable w ∧ (2 ≤ 2)%nat) ∧
  Stop 2 w = Some w1 ∧ run w1 evs = Some w2 ∧
  processed w2 = processed w1 ∧ ProcessQueue_step w2 = None.
Proof.
  assert (reachable (MkWorker [c2] false (Processing c1) true [])) as Hr.
  { exists [EvEnqueue [11; 12]%nat 1; EvWorker; EvWorker; EvEnqueue [21]%nat 2].
    reflexivity. }
  split; [split; [exact Hr | lia]|].
  destruct (no_dispatch_after_Stop
              (MkWorker [c2] false (Processing c1) true []) 2 Hr)
    as (w1 & HS & Hafter); [lia|].
  assert (w1 = MkWorker [c2] true Exited false [c1]) as ->
    by (symmetry; apply (inj Some); rewrite <-HS; reflexivity).
  split; [reflexivity|]. split; [reflexivity|].
  destruct (Hafter [EvEnqueue [31; 32; 33]%nat 3; EvStopRequest; EvStopReturn]
                   (MkWorker [c2; c3] true Exited false [c1]))
    as (H1 & _ & H3 & _); [reflexivity|].
  split; [exact H1 | exact H3].
Defined.

Lemma Stop_idempotent_witness :
  let w := MkWorker [c2] false (Processing c1) true [] in
  (reachable w ∧ (2 ≤ 2)%nat) ∧
  ∃ w1, Stop 2 w = Some w1 ∧ ∀ fuel', Stop fuel' w1 = Some w1.
Proof.
  assert (reachable (MkWorker [c2] false (Processing c1) true [])) as Hr.
  { exists [EvEnqueue [11; 12]%nat 1; EvWorker; EvWorker; EvEnqueue [21]%nat 2].
    reflexivity. }
  split; [split; [exact Hr | lia]|].
  apply (Stop_idempotent _ 2 Hr). lia.
Defined.

End WorkerInstances.

(** * Session: proofs *)

Section SessionFacts.

Import Session.
Context {A Num : Type}.
Variable model_loads : string → bool.

Lemma whisper_free_inv s rt c :
  session_inv (s, rt) → ctx s = Some c →
  session_inv (MkSession None (modelPath s), whisper_free c rt).
Proof.
  intros (Hnd & Hold & Hctx) Hc. destruct (Hctx c Hc) as (Hlt & Hnew & _).
  simpl in *. split_and!; simpl.
  - apply NoDup_app. split_and!; [done | | apply NoDup_singleton].
    intros x Hx ->%list_elem_of_singleton. done.
  - intros x [Hx| ->%list_elem_of_singleton]%elem_of_app; auto.
  - done.
Qed.

Lemma Destroy_inv st :
  session_inv st → session_inv (Destroy (st.1) (st.2)).
Proof.
  destruct st as [s rt]. intros Hinv. unfold Destroy. simpl.
  destruct (ctx s) as [c|] eqn:Hc; [by apply whisper_free_inv|].
  destruct Hinv as (Hnd & Hold & Hctx). by split_and!.
Qed.

Lemma LoadModel_inv st :
  session_inv st → session_inv (LoadModel (A:=A) (Num:=Num) model_loads (st.1) (st.2)).1.
Proof.
  destruct st as [s rt]. intros Hinv. unfold LoadModel. simpl.
  set (rt1 := match ctx s with Some c => whisper_free c rt | None => rt end).
  assert (session_inv (MkSession None (modelPath s), rt1)) as (Hnd & Hold & _).
  { subst rt1. destruct (ctx s) as [c|] eqn:Hc; [by apply whisper_free_inv|].
    destruct Hinv as (Hnd & Hold & _). by split_and!. }
  simpl in *. unfold whisper_init_from_file_with_params.
  destruct (model_loads (modelPath s)); simpl.
  - split_and!; simpl; [done | |].
    + intros c Hc. specialize (Hold c Hc). lia.
    + intros c ?. simplify_eq. split_and!; [lia | | set_solver].
      intros Hin. specialize (Hold _ Hin). lia.
  - by split_and!.
Qed.

Lemma calls_inv calls : ∀ st,
  session_inv st →
  session_inv (foldl (do_call (A:=A) (Num:=Num) model_loads) st calls).
Proof.
  induction calls as [|c calls IH]; intros st Hinv; [done|].
  simpl. apply IH. destruct c; simpl.
  - by apply LoadModel_inv.
  - by apply Destroy_inv.
Qed.

End SessionFacts.

Section SessionClaims.

Import Session.
Context {A Num : Type}.
Variable Int32Value : Num → Z.
Variable Number_New : Z → Num.
Variable inherited : JsValue A Num → string → option (JsValue A Num).
Variable model_loads : string → bool.
Variable whisper_full_default_params : whisper_full_params.
Variable whisper_full :
  whisper_context → whisper_full_params → list A → Z * list segment.

(** C9. [Destroy] releases the loaded model: the context is handed to
    [whisper_free] once and the session forgets it. A second [Destroy]
    does nothing: no call to [whisper_free], session and library state
    unchanged. Over any sequence of [LoadModel] and [Destroy] calls on a
    new session no context is freed twice. *)
Theorem Destroy_safe_to_repeat (s : WhisperSession) (rt : Runtime) :
  let s1 := (Destroy s rt).1 in
  let rt1 := (Destroy s rt).2 in
  ctx s1 = None ∧
  (∀ c, ctx s = Some c →
        free_calls rt1 = free_calls rt ++ [c] ∧ c ∉ live rt1) ∧
  (ctx s = None → (s1, rt1) = (s, rt)) ∧
  Destroy s1 rt1 = (s1, rt1) ∧
  (∀ path calls,
     no_double_free
       (foldl (do_call (A:=A) (Num:=Num) model_loads)
              (MkSession None path, fresh_runtime)
              (calls ++ [CallDestroy; CallDestroy])).2).
Proof.
  unfold Destroy. destruct (ctx s) as [c|] eqn:Hc; simpl; rewrite ?Hc.
  - split_and!; try done.
    + intros c' ?. simplify_eq. split; [done|].
      intros [_ Hn]%elem_of_difference. apply Hn. by apply elem_of_singleton.
    + intros path calls. apply calls_inv.
      split_and!; simpl; [apply NoDup_nil_2 | set_solver | done].
  - split_and!; try done.
    intros path calls. apply calls_inv.
    split_and!; simpl; [apply NoDup_nil_2 | set_solver | done].
Qed.

Lemma c_str_no_nul (l : string) : has_nul l = false → c_str l = l.
Proof.
  induction l as [|a l IH]; [done|]. simpl.
  destruct (Ascii.eqb a Ascii.zero); [done|]. simpl. intros H. by rewrite IH.
Qed.

(** The parameters [Transcribe] settles on: the five flags are fixed,
    language and thread count come from the defaults or the options. *)
Lemma transcribe_params_flags (info : CallbackInfo A Num) :
  let p := transcribe_params Int32Value inherited whisper_full_default_params
                             info in
  p = MkParams false false false true false (n_threads p) (language p).
Proof.
  simpl. unfold transcribe_params.
  destruct (bool_decide _ && _); [|done].
  destruct (Has _ _ "threads" && _); [|done].
  by destruct (Get _ _ "threads").
Qed.

(** With a model loaded and a buffer as first argument, [Transcribe] is
    the outcome of [whisper_full] on the parameters it settled on. *)
Lemma Transcribe_runs_whisper_full (s : WhisperSession) (c : whisper_context)
    (audio : list A) bprops (info : CallbackInfo A Num) :
  ctx s = Some c → info !! 0%nat = Some (JsBuffer audio bprops) →
  Transcribe Int32Value Number_New inherited whisper_full_default_params
             whisper_full s info
    = (let '(rc, segs) :=
         whisper_full c (transcribe_params Int32Value inherited
                           whisper_full_default_params info) audio in
       if negb (rc =? 0) then ThrewError "Transcription failed"
       else Returned (JsArray (segment_object Number_New <$> segs) ∅)).
Proof.
  intros Hc H0.
  assert (0 < length info)%nat as Hlen by (by eapply lookup_lt_Some).
  unfold Transcribe, arg. rewrite Hc, H0. simpl.
  by rewrite bool_decide_eq_false_2 by lia.
Qed.

(** C10, as amended. With a model loaded and an audio buffer as first
    argument, [Transcribe] is the outcome of [whisper_full] run on that
    context and audio with these parameters: the printing flags and
    translation as the code fixes them; language "en" and 4 threads when
    there is no options object or the object has no such property; a
    string [language] property cut at its first NUL character -- the
    string itself when it holds none --, respectively a numeric [threads]
    property converted to [int32_t], in place of the default. *)
Theorem Transcribe_options (s : WhisperSession) (c : whisper_context)
    (audio : list A) bprops (info : CallbackInfo A Num) :
  ctx s = Some c → info !! 0%nat = Some (JsBuffer audio bprops) →
  ∃ lang nt,
    Transcribe Int32Value Number_New inherited whisper_full_default_params
               whisper_full s info
      = (let '(rc, segs) :=
           whisper_full c (MkParams false false false true false nt lang)
                        audio in
         if negb (rc =? 0) then ThrewError "Transcription failed"
         else Returned (JsArray (segment_object Number_New <$> segs) ∅)) ∧
    (((length info < 2)%nat ∨ IsObject (arg info 1) = false) →
     lang = "en" ∧ nt = 4) ∧
    (∀ v, info !! 1%nat = Some v → IsObject v = true →
       (Has inherited v "language" = false → lang = "en") ∧
       (Has inherited v "threads" = false → nt = 4) ∧
       (∀ l, find_property inherited v "language" = Some (JsString l) →
             lang = c_str l ∧ (has_nul l = false → lang = l)) ∧
       (∀ x, find_property inherited v "threads" = Some (JsNumber x) →
             nt = Int32Value x)) ∧
    (∀ o, info !! 1%nat = Some (JsObject o) →
       (∀ l, o !! "language" = Some (JsString l) →
             lang = c_str l ∧ (has_nul l = false → lang = l)) ∧
       (∀ x, o !! "threads" = Some (JsNumber x) → nt = Int32Value x) ∧
       (o !! "language" = None → inherited (JsObject o) "language" = None →
        lang = "en") ∧
       (o !! "threads" = None → inherited (JsObject o) "threads" = None →
        nt = 4)).
Proof.
  intros Hc H0.
  set (p := transcribe_params Int32Value inherited whisper_full_default_params
                              info).
  exists (language p), (n_threads p).
  assert (0 < length info)%nat as Hlen by (by eapply lookup_lt_Some).
  assert (∀ v, info !! 1%nat = Some v → IsObject v = true →
    (Has inherited v "language" = false → language p = "en") ∧
    (Has inherited v "threads" = false → n_threads p = 4) ∧
    (∀ l, find_property inherited v "language" = Some (JsString l) →
          language p = c_str l ∧ (has_nul l = false → language p = l)) ∧
    (∀ x, find_property inherited v "threads" = Some (JsNumber x) →
          n_threads p = Int32Value x)) as Hopt.
  { intros v H1 Hobj.
    assert (2 ≤ length info)%nat as Hlen2
      by (apply lookup_lt_Some in H1; lia).
    subst p. unfold transcribe_params, arg.
    rewrite H1. simpl. rewrite Hobj, bool_decide_eq_true_2 by done. simpl.
    split_and!.
    - intros ->. simpl. done.
    - intros ->. simpl. done.
    - intros l Hl. unfold Has, Get. rewrite Hl. simpl.
      split; [done|]. intros Hn. by apply c_str_no_nul.
    - intros x Hx. unfold Has, Get. rewrite Hx. simpl. done. }
  split_and!.
  - rewrite (Transcribe_runs_whisper_full s c audio bprops info Hc H0).
    pose proof (transcribe_params_flags info) as Hf. simpl in Hf.
    fold p in Hf |- *. by rewrite <-Hf.
  - subst p. unfold transcribe_params. intros [Hshort|Hobj].
    + by rewrite bool_decide_eq_false_2 by lia.
    + rewrite Hobj, andb_false_r. done.
  - exact Hopt.
  - intros o H1. destruct (Hopt _ H1 eq_refl) as (Hl0 & Ht0 & Hl & Ht).
    split_and!.
    + intros l Ho. apply Hl. unfold find_property. simpl. by rewrite Ho.
    + intros x Ho. apply Ht. unfold find_property. simpl. by rewrite Ho.
    + intros Ho Hi. apply Hl0. unfold Has, find_property. simpl.
      rewrite Ho, Hi. apply bool_decide_eq_false_2. by intros [? ?].
    + intros Ho Hi. apply Ht0. unfold Has, find_property. simpl.
      rewrite Ho, Hi. apply bool_decide_eq_false_2. by intros [? ?].
Qed.

End SessionClaims.

Section SessionInstances.

Import Session.

Local Abbreviation defaults := (MkParams true true true false true 1 "auto").
Local Abbreviation no_proto :=
  ((λ _ _, None) : JsValue nat Z → string → option (JsValue nat Z)).
Local Abbreviation info :=
  ([JsBuffer [1; 2; 3]%nat ∅;
    JsObject (<["threads" := JsNumber 8]> (<["language" := JsString "fr"]> ∅))]
   : CallbackInfo nat Z).
Local Abbreviation loaded := (MkSession (Some 0%nat) "model.bin").
(** "e", NUL, "n" *)
Local Abbreviation e_nul_n := ("e" +:+ String Ascii.zero "n").
Local Abbreviation info_nul :=
  ([JsBuffer [1; 2; 3]%nat ∅;
    JsObject (<["language" := JsString e_nul_n]> ∅)]
   : CallbackInfo nat Z).
(** A [whisper_full] that succeeds exactly when run with "e", NUL, "n". *)
Local Abbreviation wants_e_nul_n :=
  (λ (_ : whisper_context) (q : whisper_full_params) (_ : list nat),
     if bool_decide (language q = e_nul_n) then (0, []) else (1, [])).

(** A [whisper_full] that succeeds exactly when run with "fr" and 8
    threads. *)
Local Abbreviation wants_fr_8 :=
  (λ (_ : whisper_context) (q : whisper_full_params) (_ : list nat),
     if bool_decide (language q = "fr") && (n_threads q =? 8)
     then (0, [MkSegment "bonjour" 0 150]) else (1, [])).

(** [transcribe(audio, {language: "fr", threads: 8})] and
    [transcribe(audio)]. *)
Example transcribe_params_demo :
  transcribe_params (λ x : Z, x) no_proto defaults info
    = MkParams false false false true false 8 "fr" ∧
  transcribe_params (λ x : Z, x) no_proto defaults [JsBuffer [1; 2; 3]%nat ∅]
    = MkParams false false false true false 4 "en".
Proof. split; reflexivity. Qed.

(** A [language] string with a NUL inside does not replace the default as
    it stands: the transcription runs with the part before the NUL. *)
Lemma Transcribe_language_counterexample :
  language (transcribe_params (λ x : Z, x) no_proto defaults info_nul) = "e" ∧
  language (transcribe_params (λ x : Z, x) no_proto defaults info_nul)
    ≠ e_nul_n ∧
  Transcribe (λ x : Z, x) (λ x : Z, x) no_proto defaults wants_e_nul_n
             loaded info_nul
    = ThrewError "Transcription failed".
Proof. split_and!; [reflexivity | discriminate | reflexivity]. Qed.

Lemma Transcribe_options_witness :
  (ctx loaded = Some 0%nat ∧ info !! 0%nat = Some (JsBuffer [1; 2; 3]%nat ∅)) ∧
  Transcribe (λ x : Z, x) (λ x : Z, x) no_proto defaults wants_fr_8 loaded info
    = Returned (JsArray [segment_object (λ x : Z, x)
                           (MkSegment "bonjour" 0 150)] ∅).
Proof.
  split; [split; reflexivity|].
  destruct (Transcribe_options (λ x : Z, x) (λ x : Z, x) no_proto defaults
              wants_fr_8 loaded 0%nat [1; 2; 3]%nat ∅ info)
    as (lang & nt & HT & _ & _ & Ho); [reflexivity..|].
  destruct (Ho (<["threads" := JsNumber 8]> (<["language" := JsString "fr"]> ∅)))
    as (Hl & Ht & _); [reflexivity|].
  destruct (Hl "fr") as [_ Hlang]; [reflexivity|].
  rewrite (Hlang eq_refl), (Ht 8 eq_refl) in HT. exact HT.
Defined.

End SessionInstances.

(** * Ring buffer: further properties *)

Section RingMore.

Import RingBuffer.
Context {A : Type}.
Variable C : Z.
Hypothesis C_pos : 0 < C.
Hypothesis C_max : C ≤ 2 ^ 63.

Implicit Types b : AudioRingBuffer A.

(** The state [Read] leaves: storage and write cursor as they were, the
    read cursor advanced by the count handed out, wrapping at the end. *)
Lemma Read_state b n :
  ring_ok C b → 0 ≤ n →
  Read C b n = (after_read C b (Z.min n (Available C b)),
                take (Z.to_nat n) (contents C b)).
Proof using C_pos C_max.
  intros Hok Hn.
  destruct (Read_spec C C_pos C_max b n Hok Hn) as (b' & HR & _).
  rewrite HR. f_equal.
  assert (b' = (Read C b n).1) as -> by (by rewrite HR).
  pose proof (Available_range C C_pos C_max b Hok) as Hav.
  destruct b as [buf wp rp]. destruct Hok as (Hl & Hw & Hr).
  unfold Available, after_read, Read in *. simpl in *.
  set (occ := read_available C wp rp) in *.
  destruct (Z.ltb_spec occ n).
  - replace (n `min` occ) with occ by lia.
    destruct (Z.eqb_spec occ 0) as [H0|]; simpl.
    + by rewrite H0, Z.add_0_r, Z.mod_small.
    + pose proof (C_bound C C_max). by size_simpl.
  - replace (n `min` occ) with n by lia.
    destruct (Z.eqb_spec n 0) as [H0|]; simpl.
    + by rewrite H0, Z.add_0_r, Z.mod_small.
    + pose proof (C_bound C C_max). by size_simpl.
Qed.

Lemma run_refines_bounded (ops : list (op A)) : ∀ b,
  ring_ok C b → well_typed ops →
  (run C b ops).2 = (bounded_fifo_run C (contents C b) ops).1 ∧
  contents C (run C b ops).1 = (bounded_fifo_run C (contents C b) ops).2.
Proof using C_pos C_max.
  induction ops as [|o ops IH]; intros b Hok Hty; [done|].
  apply Forall_cons in Hty as [Ho Hty].
  destruct o as [d|n|]; cbn [run exec bounded_fifo_run].
  - destruct (Write_spec C C_pos C_max b d Hok) as (HW & Hok' & Hc).
    rewrite HW. rewrite (contents_length C C_pos C_max b Hok).
    destruct (IH _ Hok' Hty) as [IH1 IH2]. rewrite Hc in IH1, IH2.
    destruct (run C _ ops) as [b2 rs]. destruct (bounded_fifo_run C _ ops).
    simpl in *. by subst.
  - destruct (Read_spec C C_pos C_max b n Hok) as (b' & HR & Hok' & _ & _ & Hc);
      [lia|].
    rewrite HR. destruct (IH _ Hok' Hty) as [IH1 IH2]. rewrite Hc in IH1, IH2.
    destruct (run C _ ops) as [b2 rs]. destruct (bounded_fifo_run C _ ops).
    simpl in *. by subst.
  - destruct (Clear_spec C C_pos C_max b Hok) as [Hok' Hc].
    destruct (IH _ Hok' Hty) as [IH1 IH2]. rewrite Hc in IH1, IH2.
    destruct (run C _ ops) as [b2 rs]. destruct (bounded_fifo_run C _ ops).
    simpl in *. by subst.
Qed.

(** X1. Whatever is called on a fresh buffer -- writes that overflow,
    reads that find too little, clears --, every call answers as a queue
    bounded by [C - 1] samples does, and the samples left in the buffer
    are the samples left in that queue. *)
Theorem ring_buffer_is_bounded_fifo (zero : A) (ops : list (op A)) :
  well_typed ops →
  (run C (create C zero) ops).2 = (bounded_fifo_run C [] ops).1 ∧
  contents C (run C (create C zero) ops).1 = (bounded_fifo_run C [] ops).2 ∧
  Available C (run C (create C zero) ops).1
    = Z.of_nat (length (bounded_fifo_run C [] ops).2).
Proof using C_pos C_max.
  intros Hty. destruct (create_spec C C_pos C_max zero) as [Hok Hc].
  destruct (run_refines_bounded ops _ Hok Hty) as [H1 H2].
  rewrite Hc in H1, H2. split_and!; [done..|].
  rewrite <-H2. symmetry. apply contents_length; try done.
  by apply run_ring_ok.
Qed.

Lemma Write_Available b (d : list A) :
  ring_ok C b →
  0 ≤ (Write C b d).2 ≤ Z.of_nat (length d) ∧
  Available C (Write C b d).1 = Available C b + (Write C b d).2.
Proof using C_pos C_max.
  intros Hok. pose proof (Available_range C C_pos C_max b Hok) as Hav.
  destruct (Write_spec C C_pos C_max b d Hok) as (HW & Hok' & Hc).
  rewrite HW. simpl. split; [lia|].
  rewrite <-(contents_length C C_pos C_max _ Hok'), Hc.
  rewrite length_app, length_take, Nat2Z.inj_add.
  rewrite (contents_length C C_pos C_max _ Hok). lia.
Qed.

Lemma Read_Available b n :
  ring_ok C b → 0 ≤ n →
  Z.of_nat (length (Read C b n).2) = Z.min n (Available C b) ∧
  Available C (Read C b n).1 = Available C b - Z.of_nat (length (Read C b n).2).
Proof using C_pos C_max.
  intros Hok Hn. pose proof (Available_range C C_pos C_max b Hok) as Hav.
  destruct (Read_spec C C_pos C_max b n Hok Hn) as (b' & HR & Hok' & _ & _ & Hc).
  rewrite HR. simpl.
  pose proof (contents_length C C_pos C_max _ Hok) as Hl.
  pose proof (contents_length C C_pos C_max _ Hok') as Hl'.
  rewrite Hc, length_drop in Hl'. rewrite length_take. lia.
Qed.

Lemma run_accounting (ops : list (op A)) : ∀ b,
  ring_ok C b → writes_and_reads ops →
  total_written (run C b ops).2 + Available C b
    = total_read (run C b ops).2 + Available C (run C b ops).1.
Proof using C_pos C_max.
  induction ops as [|o ops IH]; intros b Hok Hty; [simpl; lia|].
  apply Forall_cons in Hty as [Ho Hty].
  destruct o as [d|n|]; [| |done]; cbn [run exec].
  - destruct (Write_Available b d Hok) as [_ Hav].
    destruct (Write_spec C C_pos C_max b d Hok) as (HW & Hok' & _).
    rewrite HW in *. simpl in Hav. specialize (IH _ Hok' Hty).
    destruct (run C _ ops) as [b2 rs]. simpl in *. lia.
  - destruct (Read_Available b n Hok) as [_ Hav]; [lia|].
    destruct (Read_spec C C_pos C_max b n Hok) as (b' & HR & Hok' & _); [lia|].
    rewrite HR in *. simpl in Hav. specialize (IH _ Hok' Hty).
    destruct (run C _ ops) as [b2 rs]. simpl in *. lia.
Qed.

(** X2. Over every sequence of writes and reads on a fresh buffer, however
    the writes were truncated, the counts the writes returned add up to
    the samples the reads handed out plus the samples still in the
    buffer: no accepted sample is lost or duplicated. *)
Theorem written_equals_read_plus_held (zero : A) (ops : list (op A)) :
  writes_and_reads ops →
  total_written (run C (create C zero) ops).2
    = total_read (run C (create C zero) ops).2
      + Available C (run C (create C zero) ops).1.
Proof using C_pos C_max.
  intros Hty. destruct (create_spec C C_pos C_max zero) as [Hok _].
  pose proof (run_accounting ops _ Hok Hty) as H.
  change (Available C (create C zero)) with 0 in H. lia.
Qed.

(** X3. [Read] hands out exactly [min length occupied] samples, fewer than
    asked when the buffer holds fewer; the occupied count drops by that
    number; storage and write cursor are not touched; and on an empty
    buffer it returns nothing and changes nothing, whatever was asked. *)
Theorem Read_returns_what_is_there b n :
  ring_ok C b → 0 ≤ n →
  Z.of_nat (length (Read C b n).2) = Z.min n (Available C b) ∧
  Available C (Read C b n).1 = Available C b - Z.of_nat (length (Read C b n).2) ∧
  buffer (Read C b n).1 = buffer b ∧
  writePos (Read C b n).1 = writePos b ∧
  ring_ok C (Read C b n).1 ∧
  (writePos b = readPos b → Read C b n = (b, [])).
Proof using C_pos C_max.
  intros Hok Hn. destruct (Read_Available b n Hok Hn) as [H1 H2].
  destruct (Read_spec C C_pos C_max b n Hok Hn) as (b' & HR & Hok' & Hb & Hw & _).
  split_and!; [done | done | by rewrite HR.. |].
  intros Hempty.
  apply (Available_empty_iff C C_pos C_max b Hok) in Hempty.
  rewrite Read_state by done. rewrite Hempty, Z.min_r by lia.
  destruct b as [buf wp rp]. destruct Hok as (_ & _ & Hr).
  unfold contents, after_read, cyclic_span. simpl in *.
  rewrite Hempty, Z.add_0_r, Z.mod_small by done.
  change (Z.to_nat 0) with 0%nat. by rewrite take_0, take_nil.
Qed.

(** X4. [Write] takes exactly [min length free] samples, where [free] is
    [C - 1 - occupied]; the occupied count grows by that number; the read
    cursor is not touched; the samples already held stay as they were,
    followed by the samples taken; and it returns 0 only for empty data
    or a full buffer. *)
Theorem Write_accepts_what_fits b (d : list A) :
  ring_ok C b →
  (Write C b d).2 = Z.min (Z.of_nat (length d)) (C - 1 - Available C b) ∧
  Available C (Write C b d).1 = Available C b + (Write C b d).2 ∧
  readPos (Write C b d).1 = readPos b ∧
  contents C (Write C b d).1
    = contents C b ++ take (Z.to_nat (Write C b d).2) d ∧
  ring_ok C (Write C b d).1 ∧
  ((Write C b d).2 = 0 ↔ d = [] ∨ Available C b = C - 1).
Proof using C_pos C_max.
  intros Hok. pose proof (Available_range C C_pos C_max b Hok) as Hav.
  destruct (Write_Available b d Hok) as [_ H2].
  destruct (Write_spec C C_pos C_max b d Hok) as (HW & Hok' & Hc).
  rewrite HW in *. simpl in *. split_and!; try done.
  split.
  - intros H0. destruct d; [by left | right]. simpl in H0. lia.
  - intros [->|Hfull]; simpl; lia.
Qed.

(** X5. Round trip: after a write that fits, a read asking for at least
    everything returns the samples held before followed by the samples
    just written, and leaves the buffer empty -- wherever the cursors
    stand in the storage. *)
Theorem Write_then_Read_everything b (d : list A) n :
  ring_ok C b →
  Z.of_nat (length d) ≤ C - 1 - Available C b →
  Available C b + Z.of_nat (length d) ≤ n →
  (Read C (Write C b d).1 n).2 = contents C b ++ d ∧
  Available C (Read C (Write C b d).1 n).1 = 0.
Proof using C_pos C_max.
  intros Hok Hfit Hn. pose proof (Available_range C C_pos C_max b Hok) as Hav.
  destruct (Write_spec C C_pos C_max b d Hok) as (HW & Hok' & Hc).
  rewrite Z.min_l in HW, Hok', Hc by lia.
  rewrite Nat2Z.id, firstn_all in HW, Hok', Hc. rewrite HW. simpl.
  pose proof (contents_length C C_pos C_max _ Hok) as Hl.
  pose proof (contents_length C C_pos C_max _ Hok') as Hl'.
  rewrite Hc, length_app in Hl'.
  destruct (Read_Available _ n Hok') as [H1 H2]; [lia|].
  destruct (Read_spec C C_pos C_max _ n Hok') as (b' & HR & _); [lia|].
  rewrite HR in *. simpl in *. split; [|lia].
  rewrite Hc. apply take_ge. rewrite length_app. lia.
Qed.

(** X6. [Clear] discards what the buffer holds without touching the
    storage: right after it [Available] is 0, a read returns nothing, and
    a write is taken up to the full [C - 1] samples and read back as
    written. *)
Theorem Clear_discards b (d : list A) n :
  ring_ok C b → 0 ≤ n →
  buffer (Clear b) = buffer b ∧
  Available C (Clear b) = 0 ∧
  Read C (Clear b) n = (Clear b, []) ∧
  (Write C (Clear b) d).2 = Z.min (Z.of_nat (length d)) (C - 1) ∧
  contents C (Write C (Clear b) d).1
    = take (Z.to_nat (Z.min (Z.of_nat (length d)) (C - 1))) d.
Proof using C_pos C_max.
  intros Hok Hn. destruct (Clear_spec C C_pos C_max b Hok) as [Hok' Hc].
  pose proof (contents_length C C_pos C_max _ Hok') as Hl.
  rewrite Hc in Hl. simpl in Hl.
  destruct (Write_spec C C_pos C_max _ d Hok') as (HW & _ & Hc').
  rewrite <-Hl, Hc, Z.sub_0_r in *. simpl in Hc'.
  split_and!; [done | done | | by rewrite HW..].
  rewrite Read_state by done. rewrite Hc, <-Hl, Z.min_r by lia.
  by rewrite take_nil.
Qed.

(** X7. Producer and consumer do not disturb each other: when the read
    finds all it asks for and the write finds room, reading then writing
    and writing then reading leave the very same buffer, hand out the
    same samples and take the same count. *)
Theorem Write_Read_commute b (d : list A) n :
  ring_ok C b →
  0 ≤ n ≤ Available C b →
  Z.of_nat (length d) ≤ C - 1 - Available C b →
  (Write C (Read C b n).1 d).1 = (Read C (Write C b d).1 n).1 ∧
  (Read C b n).2 = (Read C (Write C b d).1 n).2 ∧
  (Write C (Read C b n).1 d).2 = (Write C b d).2.
Proof using C_pos C_max.
  intros Hok Hn Hfit.
  destruct (Write_spec C C_pos C_max b d Hok) as (HW & Hok1 & Hc1).
  rewrite Z.min_l in HW, Hok1, Hc1 by lia.
  rewrite Nat2Z.id, firstn_all in HW, Hok1, Hc1.
  destruct (Read_spec C C_pos C_max b n Hok) as (b2 & HR & Hok2 & _); [lia|].
  destruct (Read_Available b n Hok) as [HRl HRa]; [lia|].
  rewrite (Read_state b n) in HR, HRl, HRa by (done || lia).
  rewrite Z.min_l in HR, HRl, HRa by lia. simpl in HRl, HRa.
  assert (b2 = after_read C b n) as -> by congruence.
  destruct (Write_spec C C_pos C_max _ d Hok2) as (HW2 & _).
  rewrite Z.min_l in HW2 by lia. rewrite Nat2Z.id, firstn_all in HW2.
  destruct (Write_Available b d Hok) as [_ HWa].
  rewrite HW in HWa. simpl in HWa.
  rewrite (Read_state b n), HW by (done || lia). simpl.
  rewrite (Z.min_l n (Available C b)) by lia.
  rewrite (Read_state _ n Hok1), HW2 by lia. simpl.
  rewrite Z.min_l by lia. split_and!; [done| |done].
  rewrite Hc1, take_app_le; [done|].
  pose proof (contents_length C C_pos C_max _ Hok). lia.
Qed.

End RingMore.

Section RingCursors.

Import RingBuffer.
Context {A : Type}.
Variable C : Z.
Hypothesis C_pos : 0 < C.
Hypothesis C_max : C ≤ 2 ^ 63.

Implicit Types b : AudioRingBuffer A.

(** The occupied count computed from the cursors follows the answers the
    callers got, call by call. *)
Lemma run_tracks_held (ops : list (op A)) : ∀ b,
  ring_ok C b → well_typed ops →
  Available C (run C b ops).1 = foldl held_after (Available C b) (run C b ops).2.
Proof using C_pos C_max.
  induction ops as [|o ops IH]; intros b Hok Hty; [done|].
  apply Forall_cons in Hty as [Ho Hty].
  pose proof (exec_ring_ok C C_pos C_max b o Hok Ho) as Hok1.
  assert (Available C (exec C b o).1 = held_after (Available C b) (exec C b o).2)
    as Hstep.
  { destruct o as [d|n|]; simpl.
    - destruct (Write_Available C C_pos C_max b d Hok) as [_ Hav].
      by destruct (Write C b d).
    - destruct (Read_Available C C_pos C_max b n Hok) as [_ Hav]; [lia|].
      by destruct (Read C b n).
    - destruct (Clear_spec C C_pos C_max b Hok) as [Hok' Hc].
      by rewrite <-(contents_length C C_pos C_max _ Hok'), Hc. }
  cbn [run]. destruct (exec C b o) as [b1 r]. simpl in *.
  specialize (IH b1 Hok1 Hty).
  destruct (run C b1 ops) as [b2 rs]. simpl in *. by rewrite IH, Hstep.
Qed.

(** C6. After every sequence of [Write], [Read] and [Clear] calls on a
    fresh buffer both cursors lie in [[0, C)], and the occupied count
    computed from them is the number of samples the buffer holds -- what
    the writes reported as taken, less what the reads handed out, counted
    from the last clear -- which is at most [C - 1]. So the cursors meet
    exactly when the buffer holds nothing, never when it is full, and the
    free space is 0 exactly when it holds [C - 1] samples. *)
Theorem cursors_stay_apart (zero : A) (ops : list (op A)) :
  well_typed ops →
  let b := (run C (create C zero) ops).1 in
  let rs := (run C (create C zero) ops).2 in
  0 ≤ writePos b < C ∧
  0 ≤ readPos b < C ∧
  0 ≤ Available C b ≤ C - 1 ∧
  (Available C b = 0 ↔ writePos b = readPos b) ∧
  (write_available C (writePos b) (readPos b) = 0 ↔ Available C b = C - 1) ∧
  Available C b = samples_held rs ∧
  0 ≤ samples_held rs ≤ C - 1 ∧
  (writePos b = readPos b ↔ samples_held rs = 0) ∧
  (write_available C (writePos b) (readPos b) = 0 ↔ samples_held rs = C - 1).
Proof using C_pos C_max.
  intros Hty b rs.
  destruct (create_spec C C_pos C_max zero) as [Hok0 _].
  pose proof (run_ring_ok C C_pos C_max ops _ Hok0 Hty) as Hok. fold b in Hok.
  pose proof (Available_range C C_pos C_max b Hok) as Hav.
  pose proof (Available_empty_iff C C_pos C_max b Hok) as Hemp.
  pose proof (run_tracks_held ops _ Hok0 Hty) as Hheld.
  change (Available C (create C zero)) with 0 in Hheld.
  fold b rs in Hheld. fold (samples_held rs) in Hheld.
  destruct Hok as (Hl & Hw & Hr).
  rewrite <-Hheld.
  split_and!; try done; try lia; try (by symmetry);
    rewrite write_available_eq by done; unfold Available; lia.
Qed.

End RingCursors.

Section RingAsBuilt.

Import RingBuffer.
Context {A : Type}.

(** X19. The buffer as the source builds it, with 480000 cells, never
    holds more than 479999 samples: a first write longer than that is
    cut to 479999, so 30 s of audio at 16 kHz do not fit in one piece;
    and after any sequence of calls [Available] is at most 479999. *)
Theorem source_buffer_holds_one_less (zero : A) :
  (∀ d : list A,
     (Write SOURCE_BUFFER_SIZE (create SOURCE_BUFFER_SIZE zero) d).2
       = Z.min (Z.of_nat (length d)) 479999) ∧
  (∀ ops : list (op A), well_typed ops →
     0 ≤ Available SOURCE_BUFFER_SIZE
           (run SOURCE_BUFFER_SIZE (create SOURCE_BUFFER_SIZE zero) ops).1
       ≤ 479999).
Proof.
  assert (0 < SOURCE_BUFFER_SIZE) as HC by done.
  assert (SOURCE_BUFFER_SIZE ≤ 2 ^ 63) as Hmax by done.
  destruct (create_spec SOURCE_BUFFER_SIZE HC Hmax zero) as [Hok Hc].
  split.
  - intros d.
    destruct (Write_spec SOURCE_BUFFER_SIZE HC Hmax _ d Hok) as (HW & _).
    rewrite HW. simpl.
    rewrite <-(contents_length SOURCE_BUFFER_SIZE HC Hmax _ Hok), Hc. done.
  - intros ops Hty.
    pose proof (run_ring_ok SOURCE_BUFFER_SIZE HC Hmax ops _ Hok Hty) as Hok'.
    apply (Available_range SOURCE_BUFFER_SIZE HC Hmax _ Hok').
Qed.

End RingAsBuilt.

(** * Worker queue: further properties *)

Section WorkerMore.

Import Worker.
Context {A : Type}.
Implicit Types w : WhisperWorker A.
Implicit Types evs : list (event A).

(** After a stop request no event pops the queue: the flag stays set, the
    chunk in flight is the only one that may still reach the log, and the
    queue only grows by what is enqueued. *)
Lemma step_after_stop_request w e w' :
  stopRequested w = true → step w e = Some w' →
  stopRequested w' = true ∧
  processed w' ++ in_flight w' = processed w ++ in_flight w ∧
  audioQueue w' = audioQueue w ++ enqueued [e].
Proof.
  intros Hstop Hstep. destruct w as [q stop t j log]. simpl in Hstop. subst stop.
  destruct e; simpl in Hstep.
  - simplify_eq. done.
  - unfold ProcessQueue_step, wait_condition, in_flight in *. simpl in *.
    rewrite ?orb_true_r in Hstep.
    destruct t; simplify_eq; simpl; rewrite ?app_nil_r; done.
  - simplify_eq. simpl. by rewrite app_nil_r.
  - unfold Stop_return, in_flight in *. simpl in *.
    destruct j; [destruct t|]; simplify_eq; simpl; by rewrite ?app_nil_r.
Qed.

(** X8. A whole [Stop()] call does not drain the queue: it returns with
    the flag set, the thread exited and joined, the chunk that was in
    flight (if any) processed, and every queued chunk still in the queue,
    unprocessed. *)
Theorem Stop_does_not_drain w fuel :
  (2 ≤ fuel)%nat →
  Stop fuel w
    = Some (MkWorker (audioQueue w) true Exited false
                     (processed w ++ in_flight w)).
Proof.
  intros Hfuel. destruct fuel as [|[|fuel]]; [lia..|].
  destruct w as [q stop t j log]. unfold Stop, Stop_request, in_flight.
  cbn [audioQueue stopRequested workerThread joinable processed].
  destruct t; rewrite run_thread_S; unfold ProcessQueue_step, wait_condition;
    cbn [audioQueue stopRequested workerThread joinable processed];
    rewrite ?orb_true_r; cbn; unfold set_thread; cbn;
    rewrite ?run_thread_exited by done; unfold Stop_return; cbn;
    rewrite ?app_nil_r; by destruct j.
Qed.

(** X9. From the moment a stop has been requested, along every
    interleaving: the flag stays set, nothing is popped from the queue
    (it only grows by what is enqueued), and no chunk reaches the
    processing step except the one that was in flight. *)
Theorem nothing_popped_after_stop_request evs : ∀ w w',
  stopRequested w = true → run w evs = Some w' →
  stopRequested w' = true ∧
  processed w' ++ in_flight w' = processed w ++ in_flight w ∧
  audioQueue w' = audioQueue w ++ enqueued evs.
Proof.
  induction evs as [|e evs IH]; intros w w' Hstop Hrun; simpl in Hrun.
  { simplify_eq. by rewrite app_nil_r. }
  destruct (step w e) as [w1|] eqn:Hstep; [|done].
  destruct (step_after_stop_request _ _ _ Hstop Hstep) as (Hs1 & Hp1 & Hq1).
  destruct (IH _ _ Hs1 Hrun) as (Hs & Hp & Hq).
  split_and!; [done | congruence |].
  rewrite Hq, Hq1. change (e :: evs) with ([e] ++ evs).
  by rewrite enqueued_app, app_assoc.
Qed.

(** X10. [GetQueueSize] is the number of chunks enqueued so far less the
    chunks already processed and the one in flight: every [EnqueueAudio]
    call is accepted and counted, none is rejected or dropped. *)
Theorem GetQueueSize_accounting evs w :
  run create evs = Some w →
  GetQueueSize w + Z.of_nat (length (processed w))
                 + Z.of_nat (length (in_flight w))
    = Z.of_nat (length (enqueued evs)).
Proof.
  intros Hrun. pose proof (run_conserves _ _ _ Hrun) as Hc. simpl in Hc.
  apply (f_equal length) in Hc. rewrite !length_app in Hc.
  unfold GetQueueSize. lia.
Qed.

(** X12. The lifecycle only moves forward. In every reachable state the
    thread has exited only if a stop was requested, and has been joined
    only if it has exited; and whatever happens afterwards, an exited
    thread stays exited and a joined thread stays joined. *)
Theorem worker_lifecycle_one_way w evs w' :
  reachable w → run w evs = Some w' →
  (workerThread w = Exited → stopRequested w = true) ∧
  (joinable w = false → workerThread w = Exited) ∧
  (workerThread w = Exited → workerThread w' = Exited) ∧
  (joinable w = false → joinable w' = false).
Proof.
  intros Hr Hrun. destruct (reachable_inv _ Hr) as [Hj Hx].
  split_and!; [done | done | |].
  - intros Hex. by destruct (run_exited _ _ _ Hex Hrun).
  - intros Hjn. clear Hr Hj Hx. revert w Hrun Hjn.
    induction evs as [|e evs IH]; intros w Hrun Hjn; simpl in Hrun.
    { by simplify_eq. }
    destruct (step w e) as [w1|] eqn:Hstep; [|done].
    apply (IH w1 Hrun).
    destruct w as [q stop t j log]. simpl in Hjn. subst j.
    destruct e; simpl in Hstep;
      unfold ProcessQueue_step, Stop_return in Hstep; simpl in Hstep;
      repeat (simplify_eq; simpl in *;
              match goal with
              | H : context [match ?x with _ => _ end] |- _ => destruct x eqn:?
              end);
      by simplify_eq.
Qed.

End WorkerMore.

(** * Session: further properties *)

Section SessionMore.

Import Session.
Context {A Num : Type}.
Variable Int32Value : Num → Z.
Variable Number_New : Z → Num.
Variable inherited : JsValue A Num → string → option (JsValue A Num).
Variable model_loads : string → bool.
Variable whisper_full_default_params : whisper_full_params.
Variable whisper_full :
  whisper_context → whisper_full_params → list A → Z * list segment.

Lemma Destroy_one_live st :
  one_live_context st → one_live_context (Destroy (st.1) (st.2)).
Proof.
  destruct st as [s rt]. unfold one_live_context, Destroy. simpl.
  destruct (ctx s) as [c|] eqn:Hc; simpl; [|by rewrite Hc].
  intros ->. apply difference_diag_L.
Qed.

Lemma LoadModel_one_live st :
  one_live_context st →
  one_live_context (LoadModel (A:=A) (Num:=Num) model_loads (st.1) (st.2)).1.
Proof.
  destruct st as [s rt]. unfold one_live_context, LoadModel. simpl. intros Hl.
  set (rt1 := match ctx s with Some c => whisper_free c rt | None => rt end).
  assert (live rt1 = ∅) as Hl1.
  { subst rt1. destruct (ctx s); simpl; rewrite Hl;
      [apply difference_diag_L | done]. }
  unfold whisper_init_from_file_with_params.
  destruct (model_loads (modelPath s)); simpl; [|done].
  rewrite Hl1. apply union_empty_r_L.
Qed.

(** X13. Over any sequence of [LoadModel] and [Destroy] calls on a new
    session, the library holds exactly the session's current context and
    nothing else -- no context is leaked by a re-load or a failed load --
    and the session's context, if any, was never handed to
    [whisper_free]: what [Transcribe] passes on is never a freed
    context. *)
Theorem session_no_leak_no_dangling (path : string) (calls : list call) :
  let st := foldl (do_call (A:=A) (Num:=Num) model_loads)
                  (MkSession None path, fresh_runtime) calls in
  one_live_context st ∧
  (∀ c, ctx (st.1) = Some c → c ∈ live (st.2) ∧ c ∉ free_calls (st.2)) ∧
  modelPath (st.1) = path.
Proof.
  simpl. split_and!.
  - assert (one_live_context (MkSession None path, fresh_runtime)) as H0 by done.
    revert H0. generalize (MkSession None path, fresh_runtime).
    induction calls as [|c calls IH]; intros st Hst; [done|].
    simpl. apply IH. destruct c; simpl.
    + by apply LoadModel_one_live.
    + by apply Destroy_one_live.
  - intros c Hc.
    assert (session_inv (MkSession None path, fresh_runtime)) as H0
      by (split_and!; simpl; [apply NoDup_nil_2 | set_solver | done]).
    pose proof (calls_inv (A:=A) (Num:=Num) model_loads calls _ H0)
      as (_ & _ & Hctx).
    destruct (Hctx c Hc) as (_ & ? & ?). done.
  - assert (modelPath (MkSession None path, fresh_runtime).1 = path) as H0 by done.
    revert H0. generalize (MkSession None path, fresh_runtime).
    induction calls as [|c calls IH]; intros st Hst; [done|].
    simpl. apply IH. destruct st as [s rt]. destruct c; simpl in *.
    + unfold LoadModel, whisper_init_from_file_with_params.
      by destruct (model_loads (modelPath s)).
    + unfold Destroy. by destruct (ctx s).
Qed.

(** X14. A load that fails leaves the session without a model even if
    one was loaded before: the old context has already been freed, the
    call throws "Failed to load model: <path>", and a [Transcribe] after
    it throws "Model not loaded". *)
Theorem LoadModel_failure_unloads (s : WhisperSession) (rt : Runtime)
    (info : CallbackInfo A Num) :
  model_loads (modelPath s) = false →
  let r := LoadModel (A:=A) (Num:=Num) model_loads s rt in
  r.2 = ThrewError ("Failed to load model: " +:+ modelPath s) ∧
  r.1.1 = MkSession None (modelPath s) ∧
  (∀ c, ctx s = Some c → r.1.2 = whisper_free c rt) ∧
  (ctx s = None → r.1.2 = rt) ∧
  Transcribe Int32Value Number_New inherited whisper_full_default_params
             whisper_full (r.1.1) info
    = ThrewError "Model not loaded".
Proof.
  intros Hfail. unfold LoadModel, whisper_init_from_file_with_params.
  rewrite Hfail. simpl. split_and!; try done.
  - by intros c ->.
  - by intros ->.
Qed.

(** X15. A load that succeeds replaces the model: the session holds a
    context never handed out before, the call returns [true], and the
    context held before, if any, has been handed to [whisper_free] exactly
    once and is no longer alive. *)
Theorem LoadModel_success_replaces (s : WhisperSession) (rt : Runtime) :
  model_loads (modelPath s) = true → session_inv (s, rt) →
  let r := LoadModel (A:=A) (Num:=Num) model_loads s rt in
  r.2 = Returned (JsBoolean true) ∧
  r.1.1 = MkSession (Some (next_context rt)) (modelPath s) ∧
  next_context rt ∈ live (r.1.2) ∧
  (next_context rt ∉ free_calls (r.1.2)) ∧
  ctx s ≠ Some (next_context rt) ∧
  (∀ c, ctx s = Some c →
        free_calls (r.1.2) = free_calls rt ++ [c] ∧ c ∉ live (r.1.2)) ∧
  (ctx s = None → free_calls (r.1.2) = free_calls rt).
Proof.
  intros Hload (Hnd & Hold & Hctx). simpl in *.
  unfold LoadModel, whisper_init_from_file_with_params.
  set (rt1 := match ctx s with Some c => whisper_free c rt | None => rt end).
  assert (next_context rt1 = next_context rt) as Hn1
    by (subst rt1; by destruct (ctx s)).
  rewrite Hload. simpl. rewrite Hn1. split_and!; try done.
  - apply elem_of_union. left. by apply elem_of_singleton.
  - subst rt1. destruct (ctx s) as [c|] eqn:Hc; simpl.
    + destruct (Hctx c eq_refl) as (Hlt & _ & _).
      intros [Hin|Heq%list_elem_of_singleton]%elem_of_app; [|lia].
      specialize (Hold _ Hin). lia.
    + intros Hin. specialize (Hold _ Hin). lia.
  - intros Heq. destruct (Hctx _ Heq) as (Hlt & _). lia.
  - intros c Hc. subst rt1. rewrite Hc. simpl. split; [done|].
    destruct (Hctx c Hc) as (Hlt & _).
    intros [Heq%elem_of_singleton|[_ Hn]%elem_of_difference]%elem_of_union;
      [lia|].
    apply Hn. by apply elem_of_singleton.
  - intros Hc. subst rt1. by rewrite Hc.
Qed.

(** X16. Without a loaded model [Transcribe] throws "Model not loaded"
    before it looks at its arguments: on a session just constructed,
    whatever the constructor was given, and on a session that has been
    destroyed. *)
Theorem Transcribe_requires_model (s : WhisperSession) (rt : Runtime)
    (info0 info : CallbackInfo A Num) :
  Transcribe Int32Value Number_New inherited whisper_full_default_params
             whisper_full (construct info0).1 info
    = ThrewError "Model not loaded" ∧
  Transcribe Int32Value Number_New inherited whisper_full_default_params
             whisper_full (Destroy s rt).1 info
    = ThrewError "Model not loaded".
Proof.
  split.
  - unfold construct, Transcribe.
    destruct (bool_decide _ || _); [done|]. by destruct (arg info0 0).
  - unfold Destroy, Transcribe. by destruct (ctx s) eqn:Hc; simpl; rewrite ?Hc.
Qed.

(** The parameters [Transcribe] settles on when the options give no
    usable language and no usable thread count. *)
Lemma transcribe_params_defaults (info : CallbackInfo A Num) v :
  info !! 1%nat = Some v → IsObject v = true →
  Has inherited v "language" && IsString (Get inherited v "language") = false →
  Has inherited v "threads" && IsNumber (Get inherited v "threads") = false →
  transcribe_params Int32Value inherited whisper_full_default_params info
    = MkParams false false false true false 4 "en".
Proof.
  intros H1 Hobj Hl Ht.
  assert (2 ≤ length info)%nat as Hlen2
    by (apply lookup_lt_Some in H1; lia).
  unfold transcribe_params, arg. rewrite H1. simpl.
  rewrite Hobj, bool_decide_eq_true_2 by done. simpl.
  by rewrite Hl, Ht.
Qed.

(** X17. With a model loaded and an audio buffer as first argument,
    whatever the options are, [Transcribe] is the outcome of [whisper_full]
    run with progress, special-token and realtime printing off, timestamps
    on and translation off. A [language] property that is missing or not a
    string together with a [threads] property that is missing or not a
    number are ignored: [whisper_full] is then run with "en" and 4
    threads. *)
Theorem options_ill_typed_ignored (s : WhisperSession) (c : whisper_context)
    (audio : list A) bprops (info : CallbackInfo A Num) :
  ctx s = Some c → info !! 0%nat = Some (JsBuffer audio bprops) →
  (∃ nt lang,
     Transcribe Int32Value Number_New inherited whisper_full_default_params
                whisper_full s info
       = (let '(rc, segs) :=
            whisper_full c (MkParams false false false true false nt lang)
                         audio in
          if negb (rc =? 0) then ThrewError "Transcription failed"
          else Returned (JsArray (segment_object Number_New <$> segs) ∅))) ∧
  (∀ v, info !! 1%nat = Some v → IsObject v = true →
     (Has inherited v "language" = false ∨
      IsString (Get inherited v "language") = false) →
     (Has inherited v "threads" = false ∨
      IsNumber (Get inherited v "threads") = false) →
     Transcribe Int32Value Number_New inherited whisper_full_default_params
                whisper_full s info
       = (let '(rc, segs) :=
            whisper_full c (MkParams false false false true false 4 "en")
                         audio in
          if negb (rc =? 0) then ThrewError "Transcription failed"
          else Returned (JsArray (segment_object Number_New <$> segs) ∅))).
Proof.
  intros Hc H0.
  pose proof (Transcribe_runs_whisper_full Int32Value Number_New inherited
                whisper_full_default_params whisper_full s c audio bprops info
                Hc H0) as HT.
  split.
  - pose proof (transcribe_params_flags Int32Value inherited
                  whisper_full_default_params info) as Hp. simpl in Hp.
    eexists _, _. by rewrite HT, Hp at 1.
  - intros v H1 Hobj Hl Ht. rewrite HT.
    rewrite (transcribe_params_defaults info v H1 Hobj); [done | |].
    + destruct Hl as [-> | ->]; [done | by rewrite andb_false_r].
    + destruct Ht as [-> | ->]; [done | by rewrite andb_false_r].
Qed.



End SessionMore.

(** * Further properties: instances *)

Section RingMoreInstances.

Import RingBuffer.

Local Abbreviation b5 := (MkBuffer [1; 2; 3; 0; 0]%nat 3 1).

Lemma b5_ok : ring_ok 5 b5.
Proof. split_and!; simpl; [reflexivity | lia..]. Qed.

Lemma ring_buffer_is_bounded_fifo_witness :
  let ops := [OpWrite [1; 2; 3; 4; 5]%nat; OpRead 2; OpClear;
              OpWrite [6]%nat; OpRead 7] in
  (0 < 4 ∧ 4 ≤ 2 ^ 63 ∧ well_typed ops) ∧
  (run 4 (create 4 0%nat) ops).2 = (bounded_fifo_run 4 [] ops).1 ∧
  (bounded_fifo_run 4 [] ops).1
    = [Written 3; Got [1; 2]%nat; Cleared; Written 1; Got [6]%nat].
Proof.
  assert (well_typed [OpWrite [1; 2; 3; 4; 5]%nat; OpRead 2; OpClear;
                      OpWrite [6]%nat; OpRead 7]) as Hty
    by (repeat constructor; done).
  split; [split_and!; [lia | done | exact Hty]|].
  destruct (ring_buffer_is_bounded_fifo 4 ltac:(lia) ltac:(done) 0%nat _ Hty)
    as (H1 & _).
  split; [exact H1 | reflexivity].
Defined.

Lemma written_equals_read_plus_held_witness :
  let ops := [OpWrite [1; 2; 3; 4; 5]%nat; OpRead 2; OpWrite [6; 7; 8]%nat;
              OpRead 1] in
  (0 < 4 ∧ 4 ≤ 2 ^ 63 ∧ writes_and_reads ops) ∧
  total_written (run 4 (create 4 0%nat) ops).2
    = total_read (run 4 (create 4 0%nat) ops).2
      + Available 4 (run 4 (create 4 0%nat) ops).1.
Proof.
  assert (writes_and_reads [OpWrite [1; 2; 3; 4; 5]%nat; OpRead 2;
                            OpWrite [6; 7; 8]%nat; OpRead 1]) as Hty
    by (repeat constructor; done).
  split; [split_and!; [lia | done | exact Hty]|].
  exact (written_equals_read_plus_held 4 ltac:(lia) ltac:(done) 0%nat _ Hty).
Defined.

Lemma Read_returns_what_is_there_witness :
  (0 < 5 ∧ 5 ≤ 2 ^ 63 ∧ ring_ok 5 b5 ∧ 0 ≤ 7) ∧
  Z.of_nat (length (Read 5 b5 7).2) = Z.min 7 (Available 5 b5) ∧
  (Read 5 b5 7).2 = [2; 3]%nat.
Proof.
  split; [split_and!; [lia | done | exact b5_ok | lia]|].
  destruct (Read_returns_what_is_there 5 ltac:(lia) ltac:(done) b5 7 b5_ok
              ltac:(lia)) as (H1 & _).
  split; [exact H1 | reflexivity].
Defined.

Lemma Write_accepts_what_fits_witness :
  (0 < 5 ∧ 5 ≤ 2 ^ 63 ∧ ring_ok 5 b5) ∧
  (Write 5 b5 [7; 8; 9]%nat).2
    = Z.min (Z.of_nat (length [7; 8; 9]%nat)) (5 - 1 - Available 5 b5) ∧
  Write 5 b5 [7; 8; 9]%nat = (MkBuffer [1; 2; 3; 7; 8]%nat 0 1, 2).
Proof.
  split; [split_and!; [lia | done | exact b5_ok]|].
  destruct (Write_accepts_what_fits 5 ltac:(lia) ltac:(done) b5 [7; 8; 9]%nat
              b5_ok) as (H1 & _).
  split; [exact H1 | reflexivity].
Defined.

Lemma Write_then_Read_everything_witness :
  (0 < 5 ∧ 5 ≤ 2 ^ 63 ∧ ring_ok 5 b5 ∧
   Z.of_nat (length [7; 8]%nat) ≤ 5 - 1 - Available 5 b5 ∧
   Available 5 b5 + Z.of_nat (length [7; 8]%nat) ≤ 9) ∧
  (Read 5 (Write 5 b5 [7; 8]%nat).1 9).2 = contents 5 b5 ++ [7; 8]%nat ∧
  contents 5 b5 ++ [7; 8]%nat = [2; 3; 7; 8]%nat.
Proof.
  split; [split_and!; [lia | done | exact b5_ok | done | done]|].
  destruct (Write_then_Read_everything 5 ltac:(lia) ltac:(done) b5
              [7; 8]%nat 9 b5_ok ltac:(done) ltac:(done)) as (H1 & _).
  split; [exact H1 | reflexivity].
Defined.

Lemma Clear_discards_witness :
  (0 < 5 ∧ 5 ≤ 2 ^ 63 ∧ ring_ok 5 b5 ∧ 0 ≤ 3) ∧
  Read 5 (Clear b5) 3 = (Clear b5, []) ∧
  (Write 5 (Clear b5) [7; 8; 9; 10; 11; 12]%nat).2 = 4.
Proof.
  split; [split_and!; [lia | done | exact b5_ok | lia]|].
  destruct (Clear_discards 5 ltac:(lia) ltac:(done) b5
              [7; 8; 9; 10; 11; 12]%nat 3 b5_ok ltac:(lia))
    as (_ & _ & H3 & H4 & _).
  split; [exact H3 | exact H4].
Defined.

Lemma Write_Read_commute_witness :
  (0 < 5 ∧ 5 ≤ 2 ^ 63 ∧ ring_ok 5 b5 ∧ 0 ≤ 1 ≤ Available 5 b5 ∧
   Z.of_nat (length [7; 8]%nat) ≤ 5 - 1 - Available 5 b5) ∧
  (Write 5 (Read 5 b5 1).1 [7; 8]%nat).1
    = (Read 5 (Write 5 b5 [7; 8]%nat).1 1).1 ∧
  (Read 5 (Write 5 b5 [7; 8]%nat).1 1).1 = MkBuffer [1; 2; 3; 7; 8]%nat 0 2.
Proof.
  split; [split_and!; [lia | done | exact b5_ok | done | done | done]|].
  destruct (Write_Read_commute 5 ltac:(lia) ltac:(done) b5 [7; 8]%nat 1
              b5_ok ltac:(done) ltac:(done)) as (H1 & _).
  split; [exact H1 | reflexivity].
Defined.

Lemma cursors_stay_apart_witness :
  let ops := [OpWrite [1; 2; 3; 4; 5]%nat; OpRead 2; OpClear;
              OpWrite [6]%nat; OpRead 7; OpWrite [7; 8; 9; 10]%nat] in
  (0 < 4 ∧ 4 ≤ 2 ^ 63 ∧ well_typed ops) ∧
  0 ≤ writePos (run 4 (create 4 0%nat) ops).1 < 4 ∧
  0 ≤ readPos (run 4 (create 4 0%nat) ops).1 < 4 ∧
  Available 4 (run 4 (create 4 0%nat) ops).1
    = samples_held (run 4 (create 4 0%nat) ops).2 ∧
  samples_held (run 4 (create 4 0%nat) ops).2 = 3.
Proof.
  assert (well_typed [OpWrite [1; 2; 3; 4; 5]%nat; OpRead 2; OpClear;
                      OpWrite [6]%nat; OpRead 7; OpWrite [7; 8; 9; 10]%nat])
    as Hty by (repeat constructor; done).
  split.
  - split_and!; [lia | done | exact Hty].
  - destruct (cursors_stay_apart 4 ltac:(lia) ltac:(done) 0%nat _ Hty)
      as (H1 & H2 & _ & _ & _ & H6 & _).
    split_and!; [apply H1.. | apply H2 | apply H2 | exact H6 | reflexivity].
Defined.

(** A buffer written full is not taken for an empty one: capacity 4 takes
    3 of 4 samples, and the read gets them back. *)
Example full_is_not_empty :
  (run 4 (create 4 0%nat) [OpWrite [1; 2; 3; 4]%nat; OpRead 4]).2
    = [Written 3; Got [1; 2; 3]%nat].
Proof. reflexivity. Qed.

Lemma source_buffer_holds_one_less_witness :
  well_typed [OpWrite [1; 2]%nat; OpRead 3] ∧
  0 ≤ Available SOURCE_BUFFER_SIZE
        (run SOURCE_BUFFER_SIZE (create SOURCE_BUFFER_SIZE 0%nat)
             [OpWrite [1; 2]%nat; OpRead 3]).1
    ≤ 479999.
Proof.
  assert (well_typed [OpWrite [1; 2]%nat; OpRead 3]) as Hty
    by (repeat constructor; done).
  split; [exact Hty|].
  destruct (source_buffer_holds_one_less 0%nat) as [_ H]. exact (H _ Hty).
Defined.

End RingMoreInstances.

Section WorkerMoreInstances.

Import Worker.

Local Abbreviation c1 := (MkChunk [11; 12]%nat 1).
Local Abbreviation c2 := (MkChunk [21]%nat 2).
Local Abbreviation c3 := (MkChunk [31; 32; 33]%nat 3).

Lemma Stop_does_not_drain_witness :
  (2 ≤ 2)%nat ∧
  Stop 2 (MkWorker [c2; c3] false (Processing c1) true [])
    = Some (MkWorker [c2; c3] true Exited false [c1]).
Proof.
  split; [lia|].
  apply (Stop_does_not_drain (MkWorker [c2; c3] false (Processing c1) true []) 2).
  lia.
Defined.

Lemma nothing_popped_after_stop_request_witness :
  let w := MkWorker [c2] true (Processing c1) true [] in
  let evs := [EvEnqueue [31; 32; 33]%nat 3; EvWorker; EvWorker; EvStopReturn] in
  let w' := MkWorker [c2; c3] true Exited false [c1] in
  (stopRequested w = true ∧ run w evs = Some w') ∧
  processed w' ++ in_flight w' = processed w ++ in_flight w ∧
  audioQueue w' = audioQueue w ++ enqueued evs.
Proof.
  split; [split; reflexivity|].
  destruct (nothing_popped_after_stop_request
              [EvEnqueue [31; 32; 33]%nat 3; EvWorker; EvWorker; EvStopReturn]
              (MkWorker [c2] true (Processing c1) true [])
              (MkWorker [c2; c3] true Exited false [c1]))
    as (_ & H2 & H3); [reflexivity..|].
  split; [exact H2 | exact H3].
Defined.

Lemma GetQueueSize_accounting_witness :
  let evs := [EvEnqueue [11; 12]%nat 1; EvEnqueue [21]%nat 2; EvWorker;
              EvWorker; EvEnqueue [31; 32; 33]%nat 3] in
  let w := MkWorker [c2; c3] false (Processing c1) true [] in
  run create evs = Some w ∧
  GetQueueSize w + Z.of_nat (length (processed w))
                 + Z.of_nat (length (in_flight w))
    = Z.of_nat (length (enqueued evs)).
Proof.
  split; [reflexivity|].
  apply (GetQueueSize_accounting
           [EvEnqueue [11; 12]%nat 1; EvEnqueue [21]%nat 2; EvWorker;
            EvWorker; EvEnqueue [31; 32; 33]%nat 3]).
  reflexivity.
Defined.

Lemma worker_lifecycle_one_way_witness :
  let w := MkWorker [c1] true Exited false [] in
  let evs := [EvEnqueue [21]%nat 2; EvStopRequest; EvStopReturn] in
  let w' := MkWorker [c1; c2] true Exited false [] in
  (reachable w ∧ run w evs = Some w') ∧
  (workerThread w = Exited → workerThread w' = Exited) ∧
  (joinable w = false → joinable w' = false).
Proof.
  assert (reachable (MkWorker [c1] true Exited false [])) as Hr.
  { exists [EvEnqueue [11; 12]%nat 1; EvStopRequest; EvWorker; EvStopReturn].
    reflexivity. }
  split; [split; [exact Hr | reflexivity]|].
  destruct (worker_lifecycle_one_way
              (MkWorker [c1] true Exited false [])
              [EvEnqueue [21]%nat 2; EvStopRequest; EvStopReturn]
              (MkWorker [c1; c2] true Exited false []) Hr)
    as (_ & _ & H3 & H4); [reflexivity|].
  split; [exact H3 | exact H4].
Defined.

End WorkerMoreInstances.

Section SessionMoreInstances.

Import Session.

Local Abbreviation defaults := (MkParams true true true false true 1 "auto").
Local Abbreviation no_proto :=
  ((λ _ _, None) : JsValue nat Z → string → option (JsValue nat Z)).
Local Abbreviation loaded := (MkSession (Some 0%nat) "model.bin").
Local Abbreviation rt0 := (MkRuntime {[0%nat]} 1%nat []).
(** A [whisper_full] that succeeds exactly when run with "en" and 4
    threads. *)
Local Abbreviation wants_en_4 :=
  (λ (_ : whisper_context) (q : whisper_full_params) (_ : list nat),
     if bool_decide (language q = "en") && (n_threads q =? 4)
     then (0, [MkSegment "hello" 0 150]) else (1, [])).

Lemma LoadModel_failure_unloads_witness :
  (λ _ : string, false) (modelPath loaded) = false ∧
  (LoadModel (A:=nat) (Num:=Z) (λ _, false) loaded rt0).1.1
    = MkSession None "model.bin" ∧
  (LoadModel (A:=nat) (Num:=Z) (λ _, false) loaded rt0).1.2
    = whisper_free 0%nat rt0.
Proof.
  split; [reflexivity|].
  destruct (LoadModel_failure_unloads (A:=nat) (Num:=Z) (λ x, x) (λ x, x)
              no_proto (λ _, false) defaults (λ _ _ _, (0, [])) loaded rt0 [])
    as (_ & H2 & H3 & _); [reflexivity|].
  split; [exact H2 | apply H3; reflexivity].
Defined.

Lemma LoadModel_success_replaces_witness :
  ((λ _ : string, true) (modelPath loaded) = true ∧ session_inv (loaded, rt0)) ∧
  (LoadModel (A:=nat) (Num:=Z) (λ _, true) loaded rt0).1.1
    = MkSession (Some 1%nat) "model.bin" ∧
  free_calls (LoadModel (A:=nat) (Num:=Z) (λ _, true) loaded rt0).1.2
    = [0%nat].
Proof.
  assert (session_inv (loaded, rt0)) as Hinv.
  { split_and!; simpl.
    - apply NoDup_nil_2.
    - intros c Hc. by apply elem_of_nil in Hc.
    - intros c Hc. simplify_eq. split_and!; [lia | apply not_elem_of_nil |].
      by apply elem_of_singleton. }
  split; [split; [reflexivity | exact Hinv]|].
  destruct (LoadModel_success_replaces (A:=nat) (Num:=Z) (λ _, true)
              loaded rt0) as (_ & H2 & _ & _ & _ & H6 & _);
    [reflexivity | exact Hinv |].
  split; [exact H2|]. destruct (H6 0%nat) as [H _]; [reflexivity | exact H].
Defined.

Lemma options_ill_typed_ignored_witness :
  let info := [JsBuffer [1; 2; 3]%nat ∅;
               JsObject (<["threads" := JsString "8"]>
                         (<["language" := JsNumber 5]> ∅))]
              : CallbackInfo nat Z in
  (ctx loaded = Some 0%nat ∧ info !! 0%nat = Some (JsBuffer [1; 2; 3]%nat ∅)) ∧
  Transcribe (λ x : Z, x) (λ x : Z, x) no_proto defaults wants_en_4 loaded info
    = Returned (JsArray [segment_object (λ x : Z, x)
                           (MkSegment "hello" 0 150)] ∅).
Proof.
  split; [split; reflexivity|].
  destruct (options_ill_typed_ignored (λ x : Z, x) (λ x : Z, x) no_proto
              defaults wants_en_4 loaded 0%nat [1; 2; 3]%nat ∅
              ([JsBuffer [1; 2; 3]%nat ∅;
                JsObject (<["threads" := JsString "8"]>
                          (<["language" := JsNumber 5]> ∅))]
               : CallbackInfo nat Z)) as [_ Ho]; [reflexivity..|].
  exact (Ho _ eq_refl eq_refl (or_intror eq_refl) (or_intror eq_refl)).
Defined.


(** A time whose tenfold leaves [int64_t] wraps around. *)
Example segment_time_wraps :
  Get (A:=nat) no_proto
      (segment_object (λ x : Z, x) (MkSegment "late" (2 ^ 62) (2 ^ 62)))
      "timestampStart"
    = JsNumber (- 2 ^ 63).
Proof. reflexivity. Qed.

End SessionMoreInstances.
